(** * otc.py: a cipher keyed by a map file

    A shallow embedding of the cipher engine of [otc.py]: the inverted index
    [EncryptMap] with its per-byte [TrackedList]s, the in-memory and the
    streaming encoders, and the two decoders of the main program.

    Conventions.
    - A byte of a Python [bytes] object is a [byte] (256 values).
    - A position in the map is a [nat]; an integer read from a ciphertext
      line ([int(line)]) is a [Z], since it may be negative.
    - A Python dict is an association list in insertion order: [shuffle]
      walks the keys in that order while it consumes the random source.
    - An exception is a value of [exn]; code that may raise returns a
      [result], together with the state it leaves behind.
    - The output file is the list of the values written to it, one
      ciphertext line (or one plaintext chunk) per element. *)

From Stdlib Require Import List Arith ZArith Lia Bool Permutation Sorted.
From Stdlib Require String DecimalString.
From Stdlib Require Import Init.Byte.
From Stdlib Require Strings.Byte.
Import ListNotations.
Import String.StringSyntax.
Delimit Scope string_scope with string.

Set Implicit Arguments.

(* ------------------------------------------------------------------ *)
(** ** Exceptions, results and runs *)

(** [MapError] carries its message, as the Python class does; the other
    constructors are the built-in exceptions the modelled code can meet. *)
Inductive exn : Type :=
| MapError (message : String.string)
| KeyError
| IndexError
| StopIteration
| OSError
| TypeError
| ValueError.

Inductive result (A : Type) : Type :=
| Ok (a : A)
| Raise (e : exn).

Arguments Ok {A} a.
Arguments Raise {A} e.

(** The two messages [otc.py] raises [MapError] with.  The specification
    calls the first error [Gaps] and the second [MapTooSmall]. *)
Definition Gaps : exn := MapError "Gaps in map file."%string.
Definition MapTooSmall : exn :=
  MapError "Map file not complex enough."%string.

(** How a run of the main program ends: it falls off the end of the script,
    calls [exit(code)], or dies of an uncaught exception. *)
Inductive status : Type :=
| Finished
| Exit (code : nat)
| Uncaught (e : exn).

(** What a run leaves behind: everything written to [output_fp], in order,
    and the way the run ended. *)
Record run (A : Type) : Type := mkRun { written : list A; outcome : status }.

(** One more value written before the rest of the run. *)
Definition emit {A : Type} (x : A) (r : run A) : run A :=
  {| written := x :: written r; outcome := outcome r |}.

(* ------------------------------------------------------------------ *)
(** ** Python dict keyed by bytes, in insertion order *)

Module Dict.
Section Dict.
Variable V : Type.

Definition t : Type := list (byte * V).

(** [d[k]]; [None] stands for [KeyError]. *)
Fixpoint get (d : t) (k : byte) : option V :=
  match d with
  | [] => None
  | (k', v) :: d' => if Byte.eqb k' k then Some v else get d' k
  end.

(** [d[k] = v]: replaces the value of an existing key in place, appends a
    new key at the end. *)
Fixpoint set (d : t) (k : byte) (v : V) : t :=
  match d with
  | [] => [(k, v)]
  | (k', v') :: d' =>
      if Byte.eqb k' k then (k', v) :: d' else (k', v') :: set d' k v
  end.

Definition keys (d : t) : list byte := map fst d.
End Dict.
End Dict.

(* ------------------------------------------------------------------ *)
(** ** The random source and [random.shuffle] *)

(** The state of Python's [random] module: an arbitrary infinite sequence of
    raw draws and the number of draws consumed.  [randbelow n] reduces the
    next draw below [n], so every sequence of in-range results is produced by
    some source. *)
Record rng : Type := mkRng { draws : nat -> nat; used : nat }.

Definition randbelow (n : nat) (g : rng) : nat * rng :=
  (draws g (used g) mod n, {| draws := draws g; used := S (used g) |}).

(** [x[i] = v].  Python raises [IndexError] out of range; the only caller,
    [swap], checks both indexes first. *)
Fixpoint list_set (x : list nat) (i : nat) (v : nat) : list nat :=
  match x, i with
  | [], _ => []
  | _ :: x', O => v :: x'
  | a :: x', S i' => a :: list_set x' i' v
  end.

(** [x[i], x[j] = x[j], x[i]]: the right-hand side is read first, then
    [x[i]] and [x[j]] are assigned in this order.  Out of range the list is
    left alone; [random_shuffle] only calls it with [j <= i < len(x)]. *)
Definition swap (i j : nat) (x : list nat) : list nat :=
  match nth_error x j, nth_error x i with
  | Some xj, Some xi => list_set (list_set x i xj) j xi
  | _, _ => x
  end.

(** The loop of [random.shuffle], [for i in reversed(range(1, len(x)))],
    entered at [i]: [j = randbelow(i + 1)], then the exchange. *)
Fixpoint shuffle_from (i : nat) (x : list nat) (g : rng) : list nat * rng :=
  match i with
  | O => (x, g)
  | S i' =>
      let (j, g') := randbelow (S i) g in
      shuffle_from i' (swap i j x) g'
  end.

(** [random.shuffle(x)] of Python's standard library. *)
Definition random_shuffle (x : list nat) (g : rng) : list nat * rng :=
  shuffle_from (length x - 1) x g.

(* ------------------------------------------------------------------ *)
(** ** [EncryptMap.TrackedList] *)

Module TrackedList.

(** A list with a built-in index to the next available element. *)
Record t : Type := mk { index : nat; list : Datatypes.list nat }.

(** [__init__(self, first)] *)
Definition init (first : nat) : t := {| index := 0; list := [first] |}.

(** [append(self, elt)] *)
Definition append (self : t) (elt : nat) : t :=
  {| index := index self; list := list self ++ [elt] |}.

(** [reset(self)] *)
Definition reset (self : t) : t :=
  {| index := 0; list := list self |}.

(** [__next__(self)]: the test is [self.index > len(self.list) - 1] on
    Python integers, so it is taken in [Z].  The result comes with the
    object as the call leaves it. *)
Definition next (self : t) : result nat * t :=
  if (Z.of_nat (index self) >? Z.of_nat (length (list self)) - 1)%Z
  then (Raise StopIteration, self)
  else
    match nth_error (list self) (index self) with
    | Some value =>
        (Ok value, {| index := index self + 1; list := list self |})
    | None => (Raise IndexError, self)
    end.

End TrackedList.

(* ------------------------------------------------------------------ *)
(** ** [EncryptMap] *)

Module EncryptMap.

Definition dict : Type := Dict.t TrackedList.t.

(** The object: [self.strict] and [self.map].  ([self.map_fp] is read
    once by the constructor and not used again.) *)
Record t : Type := mk { strict : bool; map : dict }.

(** The loop of [__init__]: [for byte in map_fp.read()], entered with the
    counter at [index]. *)
Fixpoint scan (bytes : Datatypes.list byte) (index : nat) (map : dict)
  : dict :=
  match bytes with
  | [] => map
  | byte :: rest =>
      let map' :=
        match Dict.get map byte with
        | Some tl => Dict.set map byte (TrackedList.append tl index)
        | None => Dict.set map byte (TrackedList.init index)
        end in
      scan rest (index + 1) map'
  end.

(** [verify(self)] *)
Definition verify (map : dict) : result unit :=
  if negb (length map =? 256) then Raise Gaps else Ok tt.

(** [shuffle(self)]: [for key in self.map], in insertion order, shuffle
    that key's list; the random source is threaded through. *)
Fixpoint shuffle (map : dict) (g : rng) : dict * rng :=
  match map with
  | [] => ([], g)
  | (key, tl) :: map' =>
      let (l, g1) := random_shuffle (TrackedList.list tl) g in
      let (map'', g2) := shuffle map' g1 in
      ((key, {| TrackedList.index := TrackedList.index tl;
                TrackedList.list := l |}) :: map'', g2)
  end.

(** [__init__(self, map_fp, strict)], on the bytes [map_fp.read()]
    returns.  When [verify] raises, [shuffle] has not run and the random
    source is as it was. *)
Definition init (content : Datatypes.list byte) (strict : bool) (g : rng)
  : result t * rng :=
  let map := scan content 0 [] in
  match verify map with
  | Raise e => (Raise e, g)
  | Ok _ =>
      let (map', g') := shuffle map g in
      (Ok {| strict := strict; map := map' |}, g')
  end.

(** The message of the [except IndexError] branch of [encode]. *)
Definition no_key_message (byte : byte) : String.string :=
  String.append "Map does not contain the key "
    (String.append
       (DecimalString.NilZero.string_of_uint (Nat.to_uint (Byte.to_nat byte)))
       ".").

(** [self.map[byte] = tl], the in-place change of a [TrackedList] the dict
    holds. *)
Definition store (self : t) (byte : byte) (tl : TrackedList.t) : t :=
  {| strict := strict self; map := Dict.set (map self) byte tl |}.

(** [encode(self, byte)].  [self.map[byte]] of a missing key raises
    [KeyError], which no handler of the [try] catches. *)
Definition encode (self : t) (byte : byte) : result nat * t :=
  match Dict.get (map self) byte with
  | None => (Raise KeyError, self)
  | Some tl =>
      match TrackedList.next tl with
      | (Ok index, tl') => (Ok index, store self byte tl')
      | (Raise IndexError, _) =>
          (Raise (MapError (no_key_message byte)), self)
      | (Raise StopIteration, _) =>
          if strict self
          then (Raise MapTooSmall, self)
          else
            match TrackedList.next (TrackedList.reset tl) with
            | (Ok index, tl') => (Ok index, store self byte tl')
            | (Raise e, tl') => (Raise e, store self byte tl')
            end
      | (Raise e, _) => (Raise e, self)
      end
  end.

End EncryptMap.

(* ------------------------------------------------------------------ *)
(** ** A map file opened for reading *)

(** A binary file object: its bytes and its current position. *)
Record stream : Type := mkStream { content : list byte; pos : nat }.

(** The bytes after the current position. *)
Definition unread (fp : stream) : list byte := skipn (pos fp) (content fp).

(** [fp.read(1)]: the byte at the position, which then moves on by one;
    [None] is the empty [bytes] object returned at or after the end. *)
Definition read1 (fp : stream) : option byte * stream :=
  match nth_error (content fp) (pos fp) with
  | Some b => (Some b, {| content := content fp; pos := pos fp + 1 |})
  | None => (None, fp)
  end.

(** [fp.seek(offset)] with an offset that is not negative; seeking past the
    end is allowed. *)
Definition seek_to (fp : stream) (offset : nat) : stream :=
  {| content := content fp; pos := offset |}.

(** The stream [fp] once its position has moved to [p] by reading. *)
Definition standing_at (fp : stream) (p : nat) : stream :=
  {| content := content fp; pos := p |}.



(** [new_index < index], the conjunct only the second loop of
    [find_next_byte] has: [limit] is [None] in the first loop and
    [Some index] in the second. *)
Definition below (limit : option nat) (new_index : nat) : bool :=
  match limit with
  | None => true
  | Some index => new_index <? index
  end.

(** The [while] loops of [find_next_byte]:
    [while len(current_byte) == 1 and (new_index < index and)
           current_byte != target_byte:
         current_byte = fp.read(1); new_index += 1].
    [rest] is what the stream holds after its position [pos]; the loop
    returns [current_byte], [new_index] and the position it stops at. *)
Fixpoint scan_loop (limit : option nat) (target_byte : byte)
    (rest : list byte) (current_byte : option byte) (new_index pos : nat)
    {struct rest} : option byte * nat * nat :=
  match current_byte with
  | None => (current_byte, new_index, pos)
  | Some c =>
      if below limit new_index && negb (Byte.eqb c target_byte) then
        match rest with
        | [] => (None, new_index + 1, pos)
        | c' :: rest' =>
            scan_loop limit target_byte rest' (Some c') (new_index + 1)
              (pos + 1)
        end
      else (current_byte, new_index, pos)
  end.

(** [current_byte == target_byte], for a [target_byte] of one byte. *)
Definition is_byte (current_byte : option byte) (target_byte : byte) : bool :=
  match current_byte with
  | Some c => Byte.eqb c target_byte
  | None => false
  end.

(** [len(current_byte) != 1] *)
Definition at_end (current_byte : option byte) : bool :=
  match current_byte with
  | Some _ => false
  | None => true
  end.

(** [EncryptMap.find_next_byte(fp, target_byte, index)].  The function
    reads from wherever [fp] stands; it never seeks to [index].  The value
    is [Some] position, or [None] when the function falls off its last
    [elif] and so returns Python's [None]. *)
Definition find_next_byte (fp : stream) (target_byte : byte) (index : nat)
  : result (option nat) * stream :=
  let new_index := index in
  let (current_byte, fp1) := read1 fp in
  let '(current_byte, new_index, p) :=
    scan_loop None target_byte (unread fp1) current_byte new_index (pos fp1) in
  let fp2 := standing_at fp1 p in
  if is_byte current_byte target_byte then (Ok (Some new_index), fp2)
  else if at_end current_byte then
    let new_index := 0 in
    let fp3 := seek_to fp2 new_index in
    let (current_byte, fp4) := read1 fp3 in
    let '(current_byte, new_index, p) :=
      scan_loop (Some index) target_byte (unread fp4) current_byte new_index
        (pos fp4) in
    let fp5 := standing_at fp4 p in
    if is_byte current_byte target_byte then (Ok (Some new_index), fp5)
    else (Raise Gaps, fp5)
  else (Ok None, fp2).

(* ------------------------------------------------------------------ *)
(** ** [EncryptMap.assess_file] *)

(** [byte_counts[i] += 1].  Python raises [IndexError] out of range; the
    index here is the value of one byte and the list has 256 entries. *)
Definition increment (byte_counts : list nat) (i : nat) : list nat :=
  list_set byte_counts i (nth i byte_counts 0 + 1).

(** The loop of [assess_file]:
    [while len(current_byte) == 1:
         byte_counts[int.from_bytes(current_byte, ...)] += 1
         current_byte = map_fp.read(1)].
    [rest] is what the stream holds after its position [pos]; the loop
    returns the counts and the position it stops at. *)
Fixpoint assess_loop (rest : list byte) (current_byte : option byte)
    (byte_counts : list nat) (pos : nat) {struct rest} : list nat * nat :=
  match current_byte with
  | None => (byte_counts, pos)
  | Some c =>
      let byte_counts' := increment byte_counts (Byte.to_nat c) in
      match rest with
      | [] => (byte_counts', pos)
      | c' :: rest' => assess_loop rest' (Some c') byte_counts' (pos + 1)
      end
  end.

(** [min(l)]; Python raises on an empty list, which [byte_counts] never
    is. *)
Definition list_min (l : list nat) : nat :=
  match l with
  | [] => 0
  | a :: l' => fold_left Nat.min l' a
  end.

(** The line [assess_file] prints. *)
Definition assess_message (minimum : nat) : String.string :=
  String.append "The smallest number of instances of a byte is "
    (String.append
       (DecimalString.NilZero.string_of_uint (Nat.to_uint minimum)) ".").

(** [assess_file(map_fp, silent)]: the value returned, the lines printed,
    and the stream as the call leaves it. *)
Definition assess_file (map_fp : stream) (silent : bool)
  : bool * list String.string * stream :=
  let byte_counts := repeat 0 256 in
  let (current_byte, fp1) := read1 map_fp in
  let (byte_counts', p) :=
    assess_loop (unread fp1) current_byte byte_counts (pos fp1) in
  let minimum := list_min byte_counts' in
  (negb (minimum =? 0),
   if silent then [] else [assess_message minimum],
   standing_at fp1 p).

(* ------------------------------------------------------------------ *)
(** ** The main program *)

Definition finished {A : Type} : run A :=
  {| written := []; outcome := Finished |}.

Definition stopped {A : Type} (s : status) : run A :=
  {| written := []; outcome := s |}.

(** The in-memory encrypt loop: one [encode] per plaintext byte, the index
    written as one line; on a [MapError] the program prints a message on
    the standard output (left out here) and calls [exit(1)], any other
    exception is not caught. *)
Fixpoint encrypt_loop (map_obj : EncryptMap.t) (input : list byte)
  : run nat :=
  match input with
  | [] => finished
  | byte :: input' =>
      match EncryptMap.encode map_obj byte with
      | (Ok index, map_obj') => emit index (encrypt_loop map_obj' input')
      | (Raise (MapError _), _) => stopped (Exit 1)
      | (Raise e, _) => stopped (Uncaught e)
      end
  end.

(** Encryption with the map in memory: [EncryptMap(map_fp, args.strict)],
    built outside the [try], then the loop. *)
Definition encrypt_in_memory (content : list byte) (strict : bool) (g : rng)
    (input : list byte) : run nat :=
  match EncryptMap.init content strict g with
  | (Ok map_obj, _) => encrypt_loop map_obj input
  | (Raise e, _) => stopped (Uncaught e)
  end.

(** The streaming encrypt loop: [map_index] is the position the previous
    call returned, and [map_fp] stands where that call left it.  Nothing
    catches a [MapError] here; formatting [None] with [:d] would raise
    [TypeError]. *)
Fixpoint encrypt_streaming_loop (map_fp : stream) (map_index : nat)
    (input : list byte) : run nat :=
  match input with
  | [] => finished
  | byte :: input' =>
      match find_next_byte map_fp byte map_index with
      | (Ok (Some map_index'), map_fp') =>
          emit map_index' (encrypt_streaming_loop map_fp' map_index' input')
      | (Ok None, _) => stopped (Uncaught TypeError)
      | (Raise e, _) => stopped (Uncaught e)
      end
  end.

Definition encrypt_streaming (content : list byte) (input : list byte)
  : run nat :=
  encrypt_streaming_loop {| content := content; pos := 0 |} 0 input.

(** A bound of a Python slice of a sequence of length [len]: a negative
    bound counts from the end, and both are clipped to [0 .. len]. *)
Definition slice_bound (len i : Z) : Z :=
  if (i <? 0)%Z then Z.max (i + len) 0 else Z.min i len.

(** [x[lo:hi]] *)
Definition slice (x : list byte) (lo hi : Z) : list byte :=
  let len := Z.of_nat (length x) in
  let start := slice_bound len lo in
  let stop := slice_bound len hi in
  firstn (Z.to_nat (stop - start)) (skipn (Z.to_nat start) x).

(** [output_fp.write(chunk)] before the rest of the run. *)
Definition write (chunk : list byte) (r : run byte) : run byte :=
  {| written := chunk ++ written r; outcome := outcome r |}.

(** The in-memory decrypt loop, on the integers [int(line)] of the input
    lines (a line [int] rejects is not modelled):
    [output_fp.write(map_bytes[index : index + 1])]. *)
Fixpoint decrypt_in_memory (map_bytes : list byte) (lines : list Z)
  : run byte :=
  match lines with
  | [] => finished
  | index :: lines' =>
      write (slice map_bytes index (index + 1))
        (decrypt_in_memory map_bytes lines')
  end.

(** The bytes object [fp.read(1)] returned. *)
Definition chunk_of (current_byte : option byte) : list byte :=
  match current_byte with
  | Some b => [b]
  | None => []
  end.



(* ------------------------------------------------------------------ *)
(** ** Vocabulary of the statements *)

(** The positions of [b] in [bytes], ascending, counted from [i]. *)
Fixpoint positions (b : byte) (bytes : list byte) (i : nat) : list nat :=
  match bytes with
  | [] => []
  | c :: rest =>
      if Byte.eqb c b then i :: positions b rest (i + 1)
      else positions b rest (i + 1)
  end.

(** The 256 byte values, ascending. *)
Definition all_bytes : list byte :=
  map (fun n => match Byte.of_nat n with Some b => b | None => x00 end)
    (seq 0 256).

(** Python's [sorted] on positions, as an insertion sort. *)
Fixpoint insert_sorted (p : nat) (l : list nat) : list nat :=
  match l with
  | [] => [p]
  | q :: l' => if p <=? q then p :: q :: l' else q :: insert_sorted p l'
  end.

Fixpoint sorted (l : list nat) : list nat :=
  match l with
  | [] => []
  | p :: l' => insert_sorted p (sorted l')
  end.

(** A sequence of [encode] calls on one object that all return: the bytes
    passed, the positions returned, and the object afterwards. *)
Inductive encodes : EncryptMap.t -> list byte -> list nat -> EncryptMap.t
                    -> Prop :=
| encodes_nil : forall self, encodes self [] [] self
| encodes_cons : forall self byte index self1 bytes indexes self2,
    EncryptMap.encode self byte = (Ok index, self1) ->
    encodes self1 bytes indexes self2 ->
    encodes self (byte :: bytes) (index :: indexes) self2.

(** The same cursor and the same positions in another order. *)
Definition reordered (tl tl' : TrackedList.t) : Prop :=
  TrackedList.index tl' = TrackedList.index tl /\
  Permutation (TrackedList.list tl') (TrackedList.list tl).

(** The dict [m] is an index of [content]: every byte value has a key, whose
    list is not empty and holds the positions of that value in [content],
    in some order. *)
Definition indexes (content : list byte) (m : EncryptMap.dict) : Prop :=
  forall b, exists tl,
    Dict.get m b = Some tl /\
    Permutation (TrackedList.list tl) (positions b content 0) /\
    TrackedList.list tl <> [].

(** Every cursor of [m] is at the start of its list. *)
Definition fresh (m : EncryptMap.dict) : Prop :=
  forall b tl, Dict.get m b = Some tl -> TrackedList.index tl = 0.

(** The object [encode] leaves when it moves the cursor of [byte] to [i]. *)
Definition with_cursor (self : EncryptMap.t) (byte : byte)
    (tl : TrackedList.t) (i : nat) : EncryptMap.t :=
  EncryptMap.store self byte
    {| TrackedList.index := i; TrackedList.list := TrackedList.list tl |}.

(** The offset of the first occurrence of [b] in [l]. *)
Fixpoint first_index (b : byte) (l : list byte) : option nat :=
  match l with
  | [] => None
  | c :: l' =>
      if Byte.eqb c b then Some 0 else option_map S (first_index b l')
  end.

(** Scanning [l] forward from [start] without ever wrapping: the position
    of the first occurrence of each byte of [input] after the match of the
    one before; [None] when some byte is not found before the end. *)
Fixpoint forward_positions (l : list byte) (start : nat) (input : list byte)
  : option (list nat) :=
  match input with
  | [] => Some []
  | b :: input' =>
      match first_index b (skipn start l) with
      | Some d =>
          option_map (cons (start + d))
            (forward_positions l (start + d + 1) input')
      | None => None
      end
  end.

(** The positions [qs], the first lowered by [k], the next by [k + 1], and
    so on. *)
Fixpoint drifted (k : nat) (qs : list nat) : list nat :=
  match qs with
  | [] => []
  | q :: qs' => (q - k) :: drifted (k + 1) qs'
  end.

(** No cursor of [m] is beyond the end of its list. *)
Definition cursors_in (m : EncryptMap.dict) : Prop :=
  forall b tl, Dict.get m b = Some tl ->
    TrackedList.index tl <= length (TrackedList.list tl).

(** The plaintext [input] asks of no byte value more positions than the
    lists of [m] still have after their cursors. *)
Definition enough_left (m : EncryptMap.dict) (input : list byte) : Prop :=
  forall b tl, Dict.get m b = Some tl ->
    count_occ Byte.byte_eq_dec input b + TrackedList.index tl
    <= length (TrackedList.list tl).


(** The list a dict holds under a key, without its cursor. *)
Definition list_of (m : EncryptMap.dict) (b : byte) : option (list nat) :=
  option_map TrackedList.list (Dict.get m b).

(** A random source for the examples: every draw is [0]. *)
Definition zero_rng : rng := {| draws := fun _ => 0; used := 0 |}.

(** Another one: the draws are 0, 1, 2, ... *)
Definition counting_rng : rng := {| draws := fun n => n; used := 0 |}.

(** The object built from the map of the 256 byte values in order (every
    list has one position, so the shuffle draws nothing), and that object
    after one [encode] of "A". *)
Definition all_bytes_index (strict : bool) : EncryptMap.t :=
  {| EncryptMap.strict := strict;
     EncryptMap.map :=
       fst (EncryptMap.shuffle (EncryptMap.scan all_bytes 0 []) zero_rng) |}.

Definition after_A (strict : bool) : EncryptMap.t :=
  snd (EncryptMap.encode (all_bytes_index strict) x41).

(** The object built from two copies of that map in a row, with the
    random source [zero_rng], and the source after the shuffle. *)
Definition twice_index (strict : bool) : EncryptMap.t :=
  {| EncryptMap.strict := strict;
     EncryptMap.map :=
       fst (EncryptMap.shuffle
              (EncryptMap.scan (all_bytes ++ all_bytes) 0 []) zero_rng) |}.

Definition zero_rng_after : rng :=
  snd (EncryptMap.shuffle
         (EncryptMap.scan (all_bytes ++ all_bytes) 0 []) zero_rng).

(** That object after two [encode] calls on "A": the cursor of "A" has
    passed both entries of its list. *)
Definition twice_after_AA (strict : bool) : EncryptMap.t :=
  snd (EncryptMap.encode
         (snd (EncryptMap.encode (twice_index strict) x41)) x41).

Definition sample_map : list byte := [x10; x20; x10].

Example all_bytes_length : length all_bytes = 256.
Proof. reflexivity. Qed.

Example encrypt_all_bytes_strict :
  encrypt_in_memory all_bytes true zero_rng [x41; x41]
  = {| written := [65]; outcome := Exit 1 |}.
Proof. vm_compute. reflexivity. Qed.

Example encrypt_all_bytes_reuse :
  encrypt_in_memory all_bytes false zero_rng [x41; x41]
  = {| written := [65; 65]; outcome := Finished |}.
Proof. vm_compute. reflexivity. Qed.

Example encrypt_twice_round_trip :
  let map := all_bytes ++ all_bytes in
  let r := encrypt_in_memory map true counting_rng [x41; x42; x41] in
  written r = [65; 322; 321] /\
  decrypt_in_memory map (List.map Z.of_nat (written r))
  = {| written := [x41; x42; x41]; outcome := Finished |}.
Proof. vm_compute. split; reflexivity. Qed.

Example find_next_byte_no_wrap :
  find_next_byte {| content := sample_map; pos := 1 |} x10 1
  = (Ok (Some 2), {| content := sample_map; pos := 3 |}).
Proof. reflexivity. Qed.

Example find_next_byte_wrap :
  find_next_byte {| content := sample_map; pos := 2 |} x20 2
  = (Ok (Some 1), {| content := sample_map; pos := 2 |}).
Proof. reflexivity. Qed.

Example find_next_byte_absent :
  find_next_byte {| content := sample_map; pos := 1 |} x30 1
  = (Raise Gaps, {| content := sample_map; pos := 2 |}).
Proof. reflexivity. Qed.

Example slice_negative :
  slice sample_map (-2) (-2 + 1) = [x20] /\ slice sample_map (-1) (-1 + 1) = []
  /\ slice sample_map 3 (3 + 1) = [] /\ slice sample_map 2 (2 + 1) = [x10].
Proof. repeat split. Qed.

(* ------------------------------------------------------------------ *)
(** ** Bytes *)

(** In the lemmas below, whatever a hypothesis determines is implicit. *)
Unset Strict Implicit.

Lemma byte_eqb_refl (b : byte) : Byte.eqb b b = true.
Proof. now apply Byte.byte_dec_lb. Qed.

Lemma byte_eqb_eq (a b : byte) : Byte.eqb a b = true <-> a = b.
Proof. split; [apply Byte.byte_dec_bl | apply Byte.byte_dec_lb]. Qed.

Lemma byte_eqb_neq (a b : byte) : Byte.eqb a b = false <-> a <> b.
Proof.
  split.
  - apply Byte.eqb_false.
  - intros Hne. destruct (Byte.eqb a b) eqn:E; [|reflexivity].
    apply byte_eqb_eq in E. contradiction.
Qed.

(** Case analysis on the equality test of two bytes. *)
Ltac byte_cases a b :=
  let E := fresh "E" in
  destruct (Byte.eqb a b) eqn:E;
  [apply byte_eqb_eq in E; try subst | apply byte_eqb_neq in E].

Lemma In_all_bytes (b : byte) : In b all_bytes.
Proof.
  unfold all_bytes. apply in_map_iff. exists (Byte.to_nat b). split.
  - now rewrite Byte.of_to_nat.
  - apply in_seq. pose proof (Byte.to_nat_bounded b). lia.
Qed.

(** Pigeonhole on the 256 byte values. *)
Lemma NoDup_bytes_length (l : list byte) : NoDup l -> length l <= 256.
Proof.
  intros Hnd. change 256 with (length all_bytes).
  apply NoDup_incl_length; [assumption|].
  intros b _. apply In_all_bytes.
Qed.

Lemma NoDup_bytes_full (l : list byte) :
  NoDup l -> length l = 256 -> forall b, In b l.
Proof.
  intros Hnd Hlen b.
  apply (NoDup_length_incl Hnd (l' := all_bytes)).
  - rewrite Hlen. reflexivity.
  - intros c _. apply In_all_bytes.
  - apply In_all_bytes.
Qed.

Lemma full_bytes_length (l : list byte) :
  NoDup l -> (forall b, In b l) -> length l = 256.
Proof.
  intros Hnd Hall. apply Nat.le_antisymm.
  - now apply NoDup_bytes_length.
  - change 256 with (length all_bytes). apply NoDup_incl_length.
    + unfold all_bytes. apply Finite.Injective_map_NoDup_in; [|apply seq_NoDup].
      intros x y Hx Hy Heq. apply in_seq in Hx, Hy.
      destruct (Byte.of_nat x) as [bx|] eqn:Ex, (Byte.of_nat y) as [bp|] eqn:Ey.
      * subst bp. apply Byte.to_of_nat in Ex, Ey. congruence.
      * apply Byte.of_nat_None_iff in Ey. lia.
      * apply Byte.of_nat_None_iff in Ex. lia.
      * apply Byte.of_nat_None_iff in Ex. lia.
    + intros b _. apply Hall.
Qed.

(* ------------------------------------------------------------------ *)
(** ** Dict *)

Section DictFacts.
Variable V : Type.
Implicit Types (d : Dict.t V) (k : byte) (v : V).

Lemma get_set_same d k v : Dict.get (Dict.set d k v) k = Some v.
Proof.
  induction d as [|[k' v'] d IH]; simpl.
  - now rewrite byte_eqb_refl.
  - destruct (Byte.eqb k' k) eqn:E; simpl; rewrite E; auto.
Qed.

Lemma get_set_other d k k' v :
  k <> k' -> Dict.get (Dict.set d k v) k' = Dict.get d k'.
Proof.
  intros Hne. induction d as [|[k0 v0] d IH]; simpl.
  - apply byte_eqb_neq in Hne. now rewrite Hne.
  - byte_cases k0 k; simpl.
    + apply byte_eqb_neq in Hne. now rewrite Hne.
    + now rewrite IH.
Qed.

Lemma get_None_keys d k : Dict.get d k = None <-> ~ In k (Dict.keys d).
Proof.
  induction d as [|[k0 v0] d IH]; simpl.
  - tauto.
  - byte_cases k0 k.
    + split; [discriminate | tauto].
    + rewrite IH. tauto.
Qed.

Lemma get_Some_keys d k :
  (exists v, Dict.get d k = Some v) <-> In k (Dict.keys d).
Proof.
  pose proof (get_None_keys d k) as H.
  destruct (Dict.get d k) as [v|].
  - split; [|eauto]. intros _.
    destruct (in_dec Byte.byte_eq_dec k (Dict.keys d)) as [Hin|Hout]; auto.
    apply H in Hout. discriminate.
  - split; [intros [v Hv]; discriminate|]. intros Hin.
    exfalso. now apply H.
Qed.

Lemma In_keys_set d k v k' :
  In k' (Dict.keys (Dict.set d k v)) <-> k' = k \/ In k' (Dict.keys d).
Proof.
  induction d as [|[k0 v0] d IH]; simpl.
  - intuition congruence.
  - byte_cases k0 k; simpl.
    + intuition congruence.
    + rewrite IH. tauto.
Qed.

Lemma set_keys_NoDup d k v :
  NoDup (Dict.keys d) -> NoDup (Dict.keys (Dict.set d k v)).
Proof.
  induction d as [|[k0 v0] d IH]; simpl; intros Hnd.
  - constructor; [tauto | constructor].
  - inversion Hnd as [|? ? Hout Hnd']; subst.
    byte_cases k0 k; simpl.
    + now constructor.
    + constructor; [|auto]. rewrite In_keys_set. intuition congruence.
Qed.
End DictFacts.

(* ------------------------------------------------------------------ *)
(** ** Positions of a byte value *)

Lemma In_positions (b : byte) (bytes : list byte) (i p : nat) :
  In p (positions b bytes i) <-> i <= p /\ nth_error bytes (p - i) = Some b.
Proof.
  revert i. induction bytes as [|c rest IH]; intros i; simpl.
  - split; [tauto|]. intros [_ H]. destruct (p - i); discriminate.
  - assert (Hrest : In p (positions b rest (i + 1)) <->
                    i < p /\ nth_error rest (p - i - 1) = Some b).
    { rewrite IH. replace (p - (i + 1)) with (p - i - 1) by lia.
      split; intros [H1 H2]; (split; [lia | assumption]). }
    assert (Hcons : i < p -> nth_error (c :: rest) (p - i)
                             = nth_error rest (p - i - 1)).
    { intros Hlt. destruct (p - i) as [|n] eqn:En; [lia|].
      simpl. now rewrite Nat.sub_0_r. }
    byte_cases c b; simpl; rewrite ?Hrest.
    + split.
      * intros [<-|[Hlt Hn]].
        -- rewrite Nat.sub_diag. auto.
        -- rewrite Hcons by assumption. split; [lia | assumption].
      * intros [Hle Hn]. destruct (Nat.eq_dec i p) as [->|Hne]; [now left|].
        right. rewrite <- Hcons by lia. split; [lia | assumption].
    + split.
      * intros [Hlt Hn]. rewrite Hcons by assumption. split; [lia|assumption].
      * intros [Hle Hn]. destruct (Nat.eq_dec i p) as [->|Hne].
        -- rewrite Nat.sub_diag in Hn. simpl in Hn. congruence.
        -- rewrite <- Hcons by lia. split; [lia | assumption].
Qed.

Lemma In_positions_0 (b : byte) (bytes : list byte) (p : nat) :
  In p (positions b bytes 0) <-> nth_error bytes p = Some b.
Proof.
  rewrite In_positions, Nat.sub_0_r. split; [tauto|]. split; [lia|assumption].
Qed.

Lemma positions_length (b : byte) (bytes : list byte) (i : nat) :
  length (positions b bytes i) = count_occ Byte.byte_eq_dec bytes b.
Proof.
  revert i. induction bytes as [|c rest IH]; intros i; simpl; [reflexivity|].
  destruct (Byte.byte_eq_dec c b) as [->|Hne].
  - rewrite byte_eqb_refl. simpl. now rewrite IH.
  - apply byte_eqb_neq in Hne. rewrite Hne. apply IH.
Qed.

Lemma positions_NoDup (b : byte) (bytes : list byte) (i : nat) :
  NoDup (positions b bytes i).
Proof.
  revert i. induction bytes as [|c rest IH]; intros i; simpl.
  - constructor.
  - destruct (Byte.eqb c b); [|apply IH].
    constructor; [|apply IH]. rewrite In_positions. lia.
Qed.

Lemma positions_nil (b : byte) (bytes : list byte) (i : nat) :
  positions b bytes i = [] <-> ~ In b bytes.
Proof.
  rewrite <- length_zero_iff_nil, positions_length.
  symmetry. apply count_occ_not_In.
Qed.

(* ------------------------------------------------------------------ *)
(** ** The scan of the constructor *)

(** What [scan] leaves under a key: the positions found are appended to the
    list the key had, or start a fresh list with the cursor at 0. *)
Lemma scan_get (bytes : list byte) (i : nat) (m : EncryptMap.dict) (b : byte) :
  Dict.get (EncryptMap.scan bytes i m) b =
  match Dict.get m b with
  | Some tl =>
      Some {| TrackedList.index := TrackedList.index tl;
              TrackedList.list := TrackedList.list tl ++ positions b bytes i |}
  | None =>
      match positions b bytes i with
      | [] => None
      | l => Some {| TrackedList.index := 0; TrackedList.list := l |}
      end
  end.
Proof.
  revert i m. induction bytes as [|c rest IH]; intros i m; simpl.
  - destruct (Dict.get m b) as [[ix l]|]; simpl; [|reflexivity].
    now rewrite app_nil_r.
  - rewrite IH. byte_cases c b.
    + destruct (Dict.get m b) as [tl|]; rewrite get_set_same; simpl.
      * now rewrite <- app_assoc.
      * reflexivity.
    + assert (Hget : forall v, Dict.get (Dict.set m c v) b = Dict.get m b)
        by (intros v; now apply get_set_other).
      destruct (Dict.get m c) as [tl|]; now rewrite Hget.
Qed.

Lemma scan_keys_NoDup (bytes : list byte) (i : nat) (m : EncryptMap.dict) :
  NoDup (Dict.keys m) -> NoDup (Dict.keys (EncryptMap.scan bytes i m)).
Proof.
  revert i m. induction bytes as [|c rest IH]; intros i m Hnd; simpl; auto.
  apply IH. destruct (Dict.get m c); now apply set_keys_NoDup.
Qed.

Lemma scan_get_fresh (content : list byte) (b : byte) :
  Dict.get (EncryptMap.scan content 0 []) b =
  match positions b content 0 with
  | [] => None
  | l => Some {| TrackedList.index := 0; TrackedList.list := l |}
  end.
Proof. now rewrite scan_get. Qed.

(** [verify] accepts the scanned map exactly when no byte value is missing
    from the file. *)
Lemma verify_scan (content : list byte) :
  EncryptMap.verify (EncryptMap.scan content 0 []) = Ok tt
  <-> forall b, In b content.
Proof.
  set (m := EncryptMap.scan content 0 []).
  assert (Hnd : NoDup (Dict.keys m)) by (apply scan_keys_NoDup; constructor).
  assert (Hkey : forall b, In b (Dict.keys m) <-> In b content).
  { intros b. rewrite <- get_Some_keys. unfold m. rewrite scan_get_fresh.
    pose proof (positions_nil b content 0) as Hnil.
    destruct (positions b content 0) as [|p l].
    - split; [intros [v Hv]; discriminate|]. intros Hin.
      exfalso. now apply Hnil.
    - split; [|eauto]. intros _.
      destruct (in_dec Byte.byte_eq_dec b content) as [Hin|Hout]; auto.
      apply Hnil in Hout. discriminate. }
  assert (Hlen : length m = length (Dict.keys m))
    by (unfold Dict.keys; now rewrite length_map).
  unfold EncryptMap.verify. rewrite Hlen.
  destruct (length (Dict.keys m) =? 256) eqn:E; simpl.
  - apply Nat.eqb_eq in E. split; [|reflexivity]. intros _ b.
    apply Hkey. now apply NoDup_bytes_full.
  - apply Nat.eqb_neq in E. split; [discriminate|]. intros Hall.
    exfalso. apply E. apply full_bytes_length; [assumption|].
    intros b. now apply Hkey.
Qed.

(* ------------------------------------------------------------------ *)
(** ** The shuffle *)

Lemma nth_error_list_set (x : list nat) (i j v : nat) :
  i < length x ->
  nth_error (list_set x i v) j = if i =? j then Some v else nth_error x j.
Proof.
  revert i j. induction x as [|a x IH]; intros i j Hlt; simpl in *; [lia|].
  destruct i as [|i], j as [|j]; simpl; auto.
  apply IH. lia.
Qed.

Lemma list_set_perm (x : list nat) (j a b : nat) :
  nth_error x j = Some b -> Permutation (b :: list_set x j a) (a :: x).
Proof.
  revert j. induction x as [|c x IH]; intros j Hj.
  - destruct j; discriminate.
  - destruct j as [|j]; simpl in *.
    + injection Hj as ->. apply perm_swap.
    + rewrite perm_swap. rewrite (IH _ Hj). apply perm_swap.
Qed.

Lemma swap_perm (i j : nat) (x : list nat) : Permutation (swap i j x) x.
Proof.
  unfold swap.
  destruct (nth_error x j) as [xj|] eqn:Ej; [|reflexivity].
  destruct (nth_error x i) as [xi|] eqn:Ei; [|reflexivity].
  assert (Hi : i < length x) by (apply nth_error_Some; congruence).
  apply (Permutation_cons_inv (a := xj)).
  rewrite list_set_perm with (b := xj).
  - now apply list_set_perm.
  - rewrite nth_error_list_set by assumption.
    destruct (i =? j); [reflexivity | assumption].
Qed.

Lemma shuffle_from_perm (i : nat) (x : list nat) (g : rng) :
  Permutation (fst (shuffle_from i x g)) x.
Proof.
  revert x g. induction i as [|i IH]; intros x g; simpl; [reflexivity|].
  rewrite IH. apply swap_perm.
Qed.

Lemma random_shuffle_perm (x : list nat) (g : rng) :
  Permutation (fst (random_shuffle x g)) x.
Proof. apply shuffle_from_perm. Qed.

(** A list of at most one position is left as it is and draws nothing. *)
Lemma random_shuffle_short (x : list nat) (g : rng) :
  length x <= 1 -> random_shuffle x g = (x, g).
Proof.
  intros Hlen. unfold random_shuffle.
  replace (length x - 1) with 0 by lia. reflexivity.
Qed.

(** [shuffle] keeps every key, its cursor and its multiset of positions. *)
Lemma shuffle_get (m : EncryptMap.dict) (g : rng) (b : byte) :
  match Dict.get m b, Dict.get (fst (EncryptMap.shuffle m g)) b with
  | Some tl, Some tl' => reordered tl tl'
  | None, None => True
  | _, _ => False
  end.
Proof.
  revert g. induction m as [|[k tl] m IH]; intros g; simpl; [exact I|].
  pose proof (random_shuffle_perm (TrackedList.list tl) g) as Hperm.
  destruct (random_shuffle (TrackedList.list tl) g) as [l g1].
  specialize (IH g1).
  destruct (EncryptMap.shuffle m g1) as [m' g2]. simpl in *.
  destruct (Byte.eqb k b); [|exact IH].
  split; simpl; [reflexivity | assumption].
Qed.

Lemma shuffle_length (m : EncryptMap.dict) (g : rng) :
  length (fst (EncryptMap.shuffle m g)) = length m.
Proof.
  revert g. induction m as [|[k tl] m IH]; intros g; simpl; [reflexivity|].
  destruct (random_shuffle (TrackedList.list tl) g) as [l g1].
  specialize (IH g1).
  destruct (EncryptMap.shuffle m g1) as [m' g2]. simpl in *. now rewrite IH.
Qed.

(* ------------------------------------------------------------------ *)
(** ** Sorting positions *)

Lemma insert_sorted_comm (p q : nat) (l : list nat) :
  insert_sorted p (insert_sorted q l) = insert_sorted q (insert_sorted p l).
Proof.
  induction l as [|a l IH]; simpl.
  - destruct (p <=? q) eqn:E1, (q <=? p) eqn:E2; try reflexivity.
    + apply Nat.leb_le in E1, E2. f_equal; [lia | f_equal; lia].
    + apply Nat.leb_gt in E1, E2. lia.
  - destruct (q <=? a) eqn:Eq, (p <=? a) eqn:Ep; simpl;
      rewrite ?Eq, ?Ep; try reflexivity.
    + destruct (p <=? q) eqn:E1, (q <=? p) eqn:E2; try reflexivity.
      * apply Nat.leb_le in E1, E2. f_equal; [lia | f_equal; lia].
      * apply Nat.leb_gt in E1, E2. lia.
    + destruct (p <=? q) eqn:E1; [|reflexivity].
      apply Nat.leb_le in E1, Eq. apply Nat.leb_gt in Ep. lia.
    + destruct (q <=? p) eqn:E2; [|reflexivity].
      apply Nat.leb_le in E2, Ep. apply Nat.leb_gt in Eq. lia.
    + now rewrite IH.
Qed.

(** Two orders of the same positions sort to the same list. *)
Lemma sorted_perm (l l' : list nat) : Permutation l l' -> sorted l = sorted l'.
Proof.
  induction 1; simpl.
  - reflexivity.
  - now f_equal.
  - apply insert_sorted_comm.
  - congruence.
Qed.

Lemma sorted_insert_perm (p : nat) (l : list nat) :
  Permutation (insert_sorted p l) (p :: l).
Proof.
  induction l as [|q l IH]; simpl; [reflexivity|].
  destruct (p <=? q); [reflexivity|].
  rewrite IH. apply perm_swap.
Qed.

Lemma sorted_is_perm (l : list nat) : Permutation (sorted l) l.
Proof.
  induction l as [|p l IH]; simpl; [reflexivity|].
  rewrite sorted_insert_perm. now constructor.
Qed.

Lemma insert_sorted_ascending (p : nat) (l : list nat) :
  StronglySorted le l -> StronglySorted le (insert_sorted p l).
Proof.
  induction 1 as [|q l Hs IH Hall]; simpl.
  - repeat constructor.
  - destruct (p <=? q) eqn:E.
    + apply Nat.leb_le in E. constructor; [now constructor|].
      constructor; [assumption|].
      eapply Forall_impl; [|exact Hall]. simpl. intros; lia.
    + apply Nat.leb_gt in E. constructor; [assumption|].
      rewrite sorted_insert_perm. constructor; [lia | assumption].
Qed.

Lemma sorted_ascending (l : list nat) : StronglySorted le (sorted l).
Proof.
  induction l as [|p l IH]; simpl; [constructor|].
  now apply insert_sorted_ascending.
Qed.

(* ------------------------------------------------------------------ *)
(** ** The constructor *)

Lemma scan_indexes (content : list byte) :
  (forall b, In b content) -> indexes content (EncryptMap.scan content 0 []).
Proof.
  intros Hall b. rewrite scan_get_fresh.
  pose proof (positions_nil b content 0) as Hnil.
  destruct (positions b content 0) as [|p l] eqn:E.
  - exfalso. apply Hnil; auto.
  - eexists. split; [reflexivity|]. simpl. split; [reflexivity | discriminate].
Qed.

Lemma scan_fresh (content : list byte) : fresh (EncryptMap.scan content 0 []).
Proof.
  intros b tl. rewrite scan_get_fresh.
  destruct (positions b content 0); [discriminate|].
  now intros [= <-].
Qed.

Lemma shuffle_indexes (content : list byte) (m : EncryptMap.dict) (g : rng) :
  indexes content m -> indexes content (fst (EncryptMap.shuffle m g)).
Proof.
  intros Hm b. destruct (Hm b) as (tl & Hget & Hperm & Hne).
  pose proof (shuffle_get m g b) as H. rewrite Hget in H.
  destruct (Dict.get (fst (EncryptMap.shuffle m g)) b) as [tl'|]; [|easy].
  destruct H as [_ Hp]. exists tl'. split; [reflexivity|]. split.
  - now rewrite Hp.
  - intros Hnil. rewrite Hnil in Hp. apply Permutation_nil in Hp. auto.
Qed.

Lemma shuffle_fresh (m : EncryptMap.dict) (g : rng) :
  fresh m -> fresh (fst (EncryptMap.shuffle m g)).
Proof.
  intros Hm b tl' Hget. pose proof (shuffle_get m g b) as H.
  rewrite Hget in H. destruct (Dict.get m b) as [tl|] eqn:E; [|easy].
  destruct H as [-> _]. eauto.
Qed.

(** The constructor, when no byte value is missing. *)
Lemma init_full (content : list byte) (strict : bool) (g : rng) :
  (forall b, In b content) ->
  EncryptMap.init content strict g =
  (Ok {| EncryptMap.strict := strict;
         EncryptMap.map :=
           fst (EncryptMap.shuffle (EncryptMap.scan content 0 []) g) |},
   snd (EncryptMap.shuffle (EncryptMap.scan content 0 []) g)).
Proof.
  intros Hall. unfold EncryptMap.init.
  apply verify_scan in Hall. rewrite Hall.
  now destruct (EncryptMap.shuffle (EncryptMap.scan content 0 []) g).
Qed.

(** The constructor, when some byte value is missing. *)
Lemma init_gaps (content : list byte) (strict : bool) (g : rng) :
  ~ (forall b, In b content) ->
  EncryptMap.init content strict g = (Raise Gaps, g).
Proof.
  intros Hmiss. unfold EncryptMap.init.
  pose proof (verify_scan content) as Hv.
  unfold EncryptMap.verify in *.
  destruct (negb (length (EncryptMap.scan content 0 []) =? 256));
    [reflexivity|].
  exfalso. apply Hmiss. now apply Hv.
Qed.

Lemma all_or_missing (content : list byte) :
  (forall b, In b content) \/ (exists b, ~ In b content).
Proof.
  destruct (forallb (fun b => if in_dec Byte.byte_eq_dec b content
                              then true else false) all_bytes) eqn:E.
  - left. intros b. rewrite forallb_forall in E.
    specialize (E b (In_all_bytes b)).
    now destruct (in_dec Byte.byte_eq_dec b content).
  - right.
    assert (H : ~ forall b, In b all_bytes ->
                  (if in_dec Byte.byte_eq_dec b content then true else false)
                  = true)
      by (rewrite <- forallb_forall; congruence).
    destruct (Exists_dec (fun b => ~ In b content) all_bytes) as [Hex|Hno].
    + intros b. destruct (in_dec Byte.byte_eq_dec b content); tauto.
    + apply Exists_exists in Hex. destruct Hex as (b & _ & Hb). eauto.
    + exfalso. apply H. intros b Hb.
      destruct (in_dec Byte.byte_eq_dec b content) as [|Hout]; auto.
      exfalso. apply Hno. apply Exists_exists. eauto.
Qed.

(** What a successful construction establishes. *)
Lemma init_inv (content : list byte) (strict : bool) (g g' : rng)
    (self : EncryptMap.t) :
  EncryptMap.init content strict g = (Ok self, g') ->
  (forall b, In b content) /\
  EncryptMap.strict self = strict /\
  EncryptMap.map self
  = fst (EncryptMap.shuffle (EncryptMap.scan content 0 []) g) /\
  indexes content (EncryptMap.map self) /\
  fresh (EncryptMap.map self).
Proof.
  intros Hinit.
  destruct (all_or_missing content) as [Hall|[b Hb]].
  - rewrite init_full in Hinit by assumption.
    injection Hinit as <- <-. simpl. repeat split; auto.
    + now apply shuffle_indexes, scan_indexes.
    + apply shuffle_fresh, scan_fresh.
  - rewrite init_gaps in Hinit; [discriminate|]. intros Hall. now apply Hb.
Qed.

(* ------------------------------------------------------------------ *)
(** ** [__next__] and [encode] *)

Lemma next_in_range (tl : TrackedList.t) (p : nat) :
  nth_error (TrackedList.list tl) (TrackedList.index tl) = Some p ->
  TrackedList.next tl
  = (Ok p, {| TrackedList.index := TrackedList.index tl + 1;
              TrackedList.list := TrackedList.list tl |}).
Proof.
  intros Hp. unfold TrackedList.next.
  assert (Hlt : TrackedList.index tl < length (TrackedList.list tl))
    by (apply nth_error_Some; congruence).
  destruct (Z.gtb_spec (Z.of_nat (TrackedList.index tl))
              (Z.of_nat (length (TrackedList.list tl)) - 1)); [lia|].
  now rewrite Hp.
Qed.

Lemma next_exhausted (tl : TrackedList.t) :
  length (TrackedList.list tl) <= TrackedList.index tl ->
  TrackedList.next tl = (Raise StopIteration, tl).
Proof.
  intros Hle. unfold TrackedList.next.
  destruct (Z.gtb_spec (Z.of_nat (TrackedList.index tl))
              (Z.of_nat (length (TrackedList.list tl)) - 1)); [reflexivity|lia].
Qed.

(** The cursor is inside the list or it is not. *)
Lemma cursor_cases (tl : TrackedList.t) :
  (exists p, nth_error (TrackedList.list tl) (TrackedList.index tl) = Some p)
  \/ length (TrackedList.list tl) <= TrackedList.index tl.
Proof.
  destruct (nth_error (TrackedList.list tl) (TrackedList.index tl)) eqn:E.
  - left. eauto.
  - right. now apply nth_error_None.
Qed.

Section Encode.
Variables (self : EncryptMap.t) (byte : byte) (tl : TrackedList.t).
Hypothesis Hget : Dict.get (EncryptMap.map self) byte = Some tl.

(** The cursor is inside the list: its entry is returned and the cursor
    moves on by one, in either mode. *)
Lemma encode_next (p : nat) :
  nth_error (TrackedList.list tl) (TrackedList.index tl) = Some p ->
  EncryptMap.encode self byte
  = (Ok p, with_cursor self byte tl (TrackedList.index tl + 1)).
Proof.
  intros Hp. unfold EncryptMap.encode. rewrite Hget.
  now rewrite (next_in_range Hp).
Qed.

(** The cursor has passed the last entry, strict mode. *)
Lemma encode_exhausted_strict :
  length (TrackedList.list tl) <= TrackedList.index tl ->
  EncryptMap.strict self = true ->
  EncryptMap.encode self byte = (Raise MapTooSmall, self).
Proof.
  intros Hle Hs. unfold EncryptMap.encode.
  now rewrite Hget, (next_exhausted Hle), Hs.
Qed.

(** The cursor has passed the last entry, non-strict mode: the list is
    replayed from its first entry. *)
Lemma encode_exhausted_reuse (p : nat) :
  length (TrackedList.list tl) <= TrackedList.index tl ->
  EncryptMap.strict self = false ->
  nth_error (TrackedList.list tl) 0 = Some p ->
  EncryptMap.encode self byte = (Ok p, with_cursor self byte tl 1).
Proof.
  intros Hle Hs Hp. unfold EncryptMap.encode.
  rewrite Hget, (next_exhausted Hle), Hs.
  now rewrite (next_in_range (tl := TrackedList.reset tl) Hp).
Qed.
End Encode.

(** A successful [encode] in strict mode read the entry under the cursor. *)
Lemma encode_strict_inv (self self1 : EncryptMap.t) (byte : byte) (p : nat) :
  EncryptMap.strict self = true ->
  EncryptMap.encode self byte = (Ok p, self1) ->
  exists tl,
    Dict.get (EncryptMap.map self) byte = Some tl /\
    nth_error (TrackedList.list tl) (TrackedList.index tl) = Some p /\
    self1 = with_cursor self byte tl (TrackedList.index tl + 1).
Proof.
  intros Hs Henc.
  destruct (Dict.get (EncryptMap.map self) byte) as [tl|] eqn:Hget.
  - exists tl. split; [reflexivity|].
    destruct (cursor_cases tl) as [[q Hq]|Hle].
    + rewrite (encode_next Hget Hq) in Henc.
      injection Henc as -> <-. auto.
    + rewrite (encode_exhausted_strict Hget Hle Hs) in Henc. discriminate.
  - unfold EncryptMap.encode in Henc. rewrite Hget in Henc. discriminate.
Qed.

Lemma with_cursor_indexes (content : list byte) (self : EncryptMap.t)
    (byte : byte) (tl : TrackedList.t) (i : nat) :
  Dict.get (EncryptMap.map self) byte = Some tl ->
  indexes content (EncryptMap.map self) ->
  indexes content (EncryptMap.map (with_cursor self byte tl i)).
Proof.
  intros Hget Hidx b. simpl.
  destruct (Byte.byte_eq_dec byte b) as [<-|Hne].
  - rewrite get_set_same. destruct (Hidx byte) as (tl0 & H0 & Hp & Hn).
    assert (tl0 = tl) by congruence. subst tl0. eexists. split; eauto.
  - rewrite get_set_other by assumption. apply Hidx.
Qed.

Lemma nth_error_skipn_cons (A : Type) (l : list A) (i : nat) (p : A) :
  nth_error l i = Some p -> skipn i l = p :: skipn (S i) l.
Proof.
  revert i. induction l as [|a l IH]; intros i H.
  - destruct i; discriminate.
  - destruct i as [|i]; simpl in *.
    + now injection H as ->.
    + now apply IH.
Qed.

Lemma In_skipn (l : list nat) (i p : nat) : In p (skipn i l) -> In p l.
Proof.
  intros H. rewrite <- (firstn_skipn i l). apply in_or_app. now right.
Qed.

Lemma NoDup_skipn (l : list nat) (i : nat) : NoDup l -> NoDup (skipn i l).
Proof.
  intros H. rewrite <- (firstn_skipn i l) in H.
  now apply NoDup_app_remove_l in H.
Qed.

(* ------------------------------------------------------------------ *)
(** ** Sequences of strict calls *)

(** Two positions listed under different byte values differ. *)
Lemma indexes_disjoint (content : list byte) (m : EncryptMap.dict)
    (b b' : byte) (tl tl' : TrackedList.t) (p : nat) :
  indexes content m ->
  Dict.get m b = Some tl -> Dict.get m b' = Some tl' ->
  In p (TrackedList.list tl) -> In p (TrackedList.list tl') -> b = b'.
Proof.
  intros Hidx Hb Hb' Hp Hp'.
  destruct (Hidx b) as (t & Ht & Hperm & _).
  destruct (Hidx b') as (t' & Ht' & Hperm' & _).
  assert (t = tl) by congruence. assert (t' = tl') by congruence. subst.
  apply (Permutation_in _ Hperm), In_positions_0 in Hp.
  apply (Permutation_in _ Hperm'), In_positions_0 in Hp'.
  congruence.
Qed.

Lemma indexes_NoDup (content : list byte) (m : EncryptMap.dict) (b : byte)
    (tl : TrackedList.t) :
  indexes content m -> Dict.get m b = Some tl -> NoDup (TrackedList.list tl).
Proof.
  intros Hidx Hb. destruct (Hidx b) as (t & Ht & Hperm & _).
  assert (t = tl) by congruence. subst.
  apply (Permutation_NoDup (Permutation_sym Hperm)), positions_NoDup.
Qed.

(** Strict calls that all return hand out distinct positions, each taken
    from the part of some list that lies at or after its cursor. *)
Lemma strict_calls_distinct (content : list byte) (self self' : EncryptMap.t)
    (bytes : list byte) (ps : list nat) :
  encodes self bytes ps self' ->
  EncryptMap.strict self = true ->
  indexes content (EncryptMap.map self) ->
  NoDup ps /\
  forall p, In p ps ->
    exists b tl, Dict.get (EncryptMap.map self) b = Some tl /\
                 In p (skipn (TrackedList.index tl) (TrackedList.list tl)).
Proof.
  induction 1 as [self|self byte p self1 bytes ps self2 Henc Hrest IH];
    intros Hs Hidx.
  - split; [constructor | intros p []].
  - destruct (encode_strict_inv Hs Henc) as (tl & Hget & Hp & ->).
    destruct IH as [Hnd Hfrom]; [assumption | now apply with_cursor_indexes |].
    assert (Hsplit := nth_error_skipn_cons Hp).
    assert (Hold : forall q, In q ps ->
              exists b tl0, Dict.get (EncryptMap.map self) b = Some tl0 /\
                In q (skipn (TrackedList.index tl0) (TrackedList.list tl0)) /\
                q <> p).
    { intros q Hq. destruct (Hfrom q Hq) as (b & tl1 & Hget1 & Hin1).
      simpl in Hget1. destruct (Byte.byte_eq_dec byte b) as [<-|Hne].
      - rewrite get_set_same in Hget1. injection Hget1 as <-. simpl in Hin1.
        rewrite Nat.add_1_r in Hin1.
        exists byte, tl. split; [assumption|]. split.
        + rewrite Hsplit. now right.
        + intros ->.
          pose proof (NoDup_skipn (TrackedList.index tl)
                        (indexes_NoDup Hidx Hget)) as Hn.
          rewrite Hsplit in Hn. now inversion Hn.
      - rewrite get_set_other in Hget1 by assumption.
        exists b, tl1. split; [assumption|]. split; [assumption|].
        intros ->. apply Hne.
        apply (indexes_disjoint (p := p) Hidx Hget Hget1).
        + apply In_skipn with (i := TrackedList.index tl).
          rewrite Hsplit. now left.
        + eapply In_skipn; eassumption. }
    split.
    + constructor; [|assumption]. intros Hin.
      destruct (Hold p Hin) as (_ & _ & _ & _ & Hne). now apply Hne.
    + intros q [<-|Hq].
      * exists byte, tl. split; [assumption|]. rewrite Hsplit. now left.
      * destruct (Hold q Hq) as (b & tl0 & H1 & H2 & _). eauto.
Qed.

(** The in-memory loop returns normally exactly on a sequence of calls that
    all return, and then it wrote the positions they returned. *)
Lemma encrypt_loop_finished (self : EncryptMap.t) (input : list byte)
    (ps : list nat) :
  encrypt_loop self input = {| written := ps; outcome := Finished |}
  <-> exists self', encodes self input ps self'.
Proof.
  revert self ps. induction input as [|b input IH]; intros self ps; simpl.
  - split.
    + intros [= <-]. eexists. constructor.
    + intros [self' H]. now inversion H.
  - split.
    + destruct (EncryptMap.encode self b) as [[p|e] self1] eqn:Henc.
      * destruct (encrypt_loop self1 input) as [w o] eqn:Hloop.
        unfold emit. simpl. intros [= <- ->].
        apply IH in Hloop. destruct Hloop as [self' H].
        exists self'. econstructor; eassumption.
      * destruct e; discriminate.
    + intros [self' H]. inversion H as [|? ? p self1 ? qs ? Henc Hrest]; subst.
      rewrite Henc.
      assert (Hloop : encrypt_loop self1 input
                      = {| written := qs; outcome := Finished |})
        by (apply IH; eauto).
      now rewrite Hloop.
Qed.

(** The loop with enough unused positions left for every byte value of the
    input: it returns normally and every position written holds the byte
    it stands for. *)
Lemma strict_loop_round_trip (content : list byte) (input : list byte) :
  forall self,
    indexes content (EncryptMap.map self) ->
    (forall b tl, Dict.get (EncryptMap.map self) b = Some tl ->
       count_occ Byte.byte_eq_dec input b + TrackedList.index tl
       <= length (TrackedList.list tl)) ->
    exists ps,
      encrypt_loop self input = {| written := ps; outcome := Finished |} /\
      Forall2 (fun p b => nth_error content p = Some b) ps input.
Proof.
  induction input as [|b input IH]; intros self Hidx Hroom; simpl.
  - exists []. split; [reflexivity | constructor].
  - destruct (Hidx b) as (tl & Hget & Hperm & _).
    pose proof (Hroom b tl Hget) as Hb. rewrite count_occ_cons_eq in Hb by auto.
    destruct (cursor_cases tl) as [[p Hp]|Hle]; [|lia].
    rewrite (encode_next Hget Hp).
    destruct (IH (with_cursor self b tl (TrackedList.index tl + 1)))
      as (ps & Hloop & Hall).
    + now apply with_cursor_indexes.
    + intros b' tl' Hget'. simpl in Hget'.
      destruct (Byte.byte_eq_dec b b') as [<-|Hne].
      * rewrite get_set_same in Hget'. injection Hget' as <-. simpl. lia.
      * rewrite get_set_other in Hget' by assumption.
        pose proof (Hroom b' tl' Hget') as Hb'.
        rewrite count_occ_cons_neq in Hb' by assumption. exact Hb'.
    + exists (p :: ps). rewrite Hloop. split; [reflexivity|].
      constructor; [|assumption].
      apply In_positions_0. apply (Permutation_in _ Hperm).
      eapply nth_error_In; eassumption.
Qed.

Lemma nth_error_first (l : list nat) :
  l <> [] -> exists p, nth_error l 0 = Some p.
Proof. destruct l as [|p l]; [contradiction | simpl; eauto]. Qed.

(** [encode] keeps the mode, and keeps the dict an index of the map. *)
Lemma encode_keeps (content : list byte) (self self1 : EncryptMap.t)
    (byte : byte) (r : result nat) :
  EncryptMap.encode self byte = (r, self1) ->
  indexes content (EncryptMap.map self) ->
  EncryptMap.strict self1 = EncryptMap.strict self /\
  indexes content (EncryptMap.map self1).
Proof.
  intros Henc Hidx. destruct (Hidx byte) as (tl & Hget & _ & Hne).
  destruct (cursor_cases tl) as [[p Hp]|Hle].
  - rewrite (encode_next Hget Hp) in Henc. injection Henc as <- <-.
    split; [reflexivity | now apply with_cursor_indexes].
  - destruct (EncryptMap.strict self) eqn:Hs.
    + rewrite (encode_exhausted_strict Hget Hle Hs) in Henc.
      injection Henc as <- <-. auto.
    + destruct (nth_error_first Hne) as [p Hp].
      rewrite (encode_exhausted_reuse Hget Hle Hs Hp) in Henc.
      injection Henc as <- <-.
      split; [exact Hs | now apply with_cursor_indexes].
Qed.

Lemma encodes_keeps (content : list byte) (self self' : EncryptMap.t)
    (bytes : list byte) (ps : list nat) :
  encodes self bytes ps self' ->
  indexes content (EncryptMap.map self) ->
  EncryptMap.strict self' = EncryptMap.strict self /\
  indexes content (EncryptMap.map self').
Proof.
  induction 1 as [self|self byte p self1 bytes ps self2 Henc Hrest IH];
    intros Hidx; [auto|].
  destruct (encode_keeps Henc Hidx) as [Hs1 Hidx1].
  destruct (IH Hidx1) as [Hs2 Hidx2]. split; [congruence | assumption].
Qed.

(* ------------------------------------------------------------------ *)
(** ** Calls in non-strict mode *)

(** In non-strict mode a call on an index of the map returns a position
    of its key's list; past the end of the list, the first one. *)
Lemma encode_nonstrict (content : list byte) (self : EncryptMap.t)
    (byte : byte) :
  EncryptMap.strict self = false ->
  indexes content (EncryptMap.map self) ->
  exists tl p self1,
    Dict.get (EncryptMap.map self) byte = Some tl /\
    EncryptMap.encode self byte = (Ok p, self1) /\
    In p (TrackedList.list tl) /\
    (length (TrackedList.list tl) <= TrackedList.index tl ->
     nth_error (TrackedList.list tl) 0 = Some p /\
     self1 = with_cursor self byte tl 1).
Proof.
  intros Hs Hidx. destruct (Hidx byte) as (tl & Hget & _ & Hne).
  exists tl. destruct (cursor_cases tl) as [[p Hp]|Hle].
  - exists p. eexists. split; [assumption|].
    split; [apply (encode_next Hget Hp)|].
    split; [eapply nth_error_In; eassumption|].
    intros Hle. apply nth_error_None in Hle. congruence.
  - destruct (nth_error_first Hne) as [p Hp].
    exists p. eexists. split; [assumption|].
    split; [apply (encode_exhausted_reuse Hget Hle Hs Hp)|].
    split; [eapply nth_error_In; eassumption | auto].
Qed.

Lemma encodes_nonstrict (content : list byte) (bytes : list byte) :
  forall self,
    EncryptMap.strict self = false ->
    indexes content (EncryptMap.map self) ->
    exists ps self',
      encodes self bytes ps self' /\ length ps = length bytes /\
      Forall2 (fun p b => nth_error content p = Some b) ps bytes.
Proof.
  induction bytes as [|b bytes IH]; intros self Hs Hidx.
  - exists [], self. repeat constructor.
  - destruct (encode_nonstrict b Hs Hidx) as (tl & p & self1 & Hget & Henc & Hin & _).
    destruct (encode_keeps Henc Hidx) as [Hs1 Hidx1].
    destruct (IH self1) as (ps & self' & Hcalls & Hlen & Hall);
      [congruence | assumption |].
    exists (p :: ps), self'. split; [econstructor; eassumption|].
    split; [simpl; congruence|]. constructor; [|assumption].
    destruct (Hidx b) as (tl0 & Hget0 & Hperm & _).
    assert (tl0 = tl) by congruence. subst tl0.
    apply In_positions_0. now apply (Permutation_in _ Hperm).
Qed.

(* ------------------------------------------------------------------ *)
(** ** The decoders *)

Lemma firstn_skipn_one (x : list byte) (p : nat) (b : byte) :
  nth_error x p = Some b -> firstn 1 (skipn p x) = [b].
Proof.
  revert p. induction x as [|a x IH]; intros p H.
  - destruct p; discriminate.
  - destruct p as [|p]; simpl in *.
    + now injection H as ->.
    + now apply IH.
Qed.

(** [x[p : p + 1]] at a position inside [x]. *)
Lemma slice_inside (x : list byte) (p : nat) (b : byte) :
  nth_error x p = Some b -> slice x (Z.of_nat p) (Z.of_nat p + 1) = [b].
Proof.
  intros H.
  assert (Hlt : p < length x) by (apply nth_error_Some; congruence).
  unfold slice, slice_bound.
  destruct (Z.ltb_spec (Z.of_nat p) 0); [lia|].
  destruct (Z.ltb_spec (Z.of_nat p + 1) 0); [lia|].
  rewrite !Z.min_l by lia.
  replace (Z.of_nat p + 1 - Z.of_nat p)%Z with 1%Z by lia.
  rewrite Nat2Z.id. change (Z.to_nat 1) with 1. now apply firstn_skipn_one.
Qed.


Lemma decrypt_in_memory_correct (content : list byte) (ps : list nat)
    (bytes : list byte) :
  Forall2 (fun p b => nth_error content p = Some b) ps bytes ->
  decrypt_in_memory content (map Z.of_nat ps)
  = {| written := bytes; outcome := Finished |}.
Proof.
  induction 1 as [|p b ps bytes Hp _ IH]; simpl; [reflexivity|].
  rewrite IH, (slice_inside Hp). reflexivity.
Qed.






(* ------------------------------------------------------------------ *)
(** ** [find_next_byte] *)

Lemma skipn_cons_inv (x : list byte) (k : nat) (c : byte) (rest : list byte) :
  skipn k x = c :: rest -> nth_error x k = Some c /\ skipn (S k) x = rest.
Proof.
  revert k. induction x as [|a x IH]; intros k H.
  - destruct k; discriminate.
  - destruct k as [|k]; simpl in *.
    + injection H as -> ->. auto.
    + now apply IH.
Qed.

Lemma skipn_nil_inv (x : list byte) (k : nat) :
  skipn k x = [] -> nth_error x k = None.
Proof.
  intros H. apply nth_error_None.
  pose proof (length_skipn k x) as Hl. rewrite H in Hl. simpl in Hl. lia.
Qed.

Lemma is_byte_true (c : option byte) (target : byte) :
  is_byte c target = true <-> c = Some target.
Proof.
  destruct c as [c|]; simpl.
  - rewrite byte_eqb_eq. split; congruence.
  - split; discriminate.
Qed.

(** One turn of a loop of [find_next_byte] is one [fp.read(1)]: when the
    test holds, the loop goes on with the byte [read1] returns, with
    [new_index] one more, from the stream as [read1] leaves it. *)
Lemma scan_loop_step (limit : option nat) (target : byte) (fp : stream)
    (c : byte) (n : nat) :
  scan_loop limit target (unread fp) (Some c) n (pos fp) =
  if below limit n && negb (Byte.eqb c target)
  then let (current_byte, fp') := read1 fp in
       scan_loop limit target (unread fp') current_byte (n + 1) (pos fp')
  else (Some c, n, pos fp).
Proof.
  unfold read1, unread.
  destruct (nth_error (content fp) (pos fp)) as [b|] eqn:E.
  - rewrite (nth_error_skipn_cons E).
    replace (S (pos fp)) with (pos fp + 1) by lia. reflexivity.
  - assert (Hnil : skipn (pos fp) (content fp) = [])
      by (apply skipn_all2; now apply nth_error_None).
    rewrite Hnil. simpl. reflexivity.
Qed.

(** One loop of [find_next_byte], entered with [current_byte] the byte at
    [new_index] and the stream just after it: on exit [current_byte] is
    again the byte at [new_index], no position passed on the way holds the
    target, and the loop stopped on the target, at the end of the map, or
    at the limit. *)
Lemma scan_loop_aligned (x : list byte) (limit : option nat) (target : byte) :
  forall rest c n p c' n' p',
    c = nth_error x n ->
    rest = skipn (S n) x ->
    scan_loop limit target rest c n p = (c', n', p') ->
    c' = nth_error x n' /\ n <= n' /\
    (forall j, n <= j < n' -> nth_error x j <> Some target) /\
    (c' = Some target \/ c' = None \/ below limit n' = false).
Proof.
  induction rest as [|c1 rest IH]; intros c n p c' n' p' Hc Hrest Hloop;
    simpl in Hloop; destruct c as [c|].
  - destruct (below limit n) eqn:Hb; simpl in Hloop.
    + byte_cases c target; simpl in Hloop; injection Hloop as <- <- <-.
      * repeat split; auto. intros j Hj. lia.
      * symmetry in Hrest. apply skipn_nil_inv in Hrest.
        rewrite Nat.add_1_r. repeat split; auto.
        intros j Hj. assert (j = n) by lia. subst j. congruence.
    + injection Hloop as <- <- <-. repeat split; auto. intros j Hj. lia.
  - injection Hloop as <- <- <-. repeat split; auto. intros j Hj. lia.
  - destruct (below limit n) eqn:Hb; simpl in Hloop.
    + byte_cases c target; simpl in Hloop.
      * injection Hloop as <- <- <-. repeat split; auto. intros j Hj. lia.
      * symmetry in Hrest. apply skipn_cons_inv in Hrest.
        destruct Hrest as [Hn1 Hrest1]. rewrite Nat.add_1_r in Hloop.
        destruct (IH (Some c1) (S n) (p + 1) c' n' p') as (H1 & H2 & H3 & H4);
          auto.
        repeat split; auto; [lia|]. intros j Hj.
        destruct (Nat.eq_dec j n) as [->|Hne]; [congruence|].
        apply H3. lia.
    + injection Hloop as <- <- <-. repeat split; auto. intros j Hj. lia.
  - injection Hloop as <- <- <-. repeat split; auto. intros j Hj. lia.
Qed.

(** The loop entered after [read1] on a stream that stands at [n]. *)
Lemma scan_loop_after_read (x : list byte) (limit : option nat)
    (target : byte) (n : nat) (c : option byte) (fp1 : stream)
    (c' : option byte) (n' p' : nat) :
  read1 {| content := x; pos := n |} = (c, fp1) ->
  scan_loop limit target (unread fp1) c n (pos fp1) = (c', n', p') ->
  content fp1 = x /\
  c' = nth_error x n' /\ n <= n' /\
  (forall j, n <= j < n' -> nth_error x j <> Some target) /\
  (c' = Some target \/ c' = None \/ below limit n' = false).
Proof.
  unfold read1. simpl. destruct (nth_error x n) as [b|] eqn:E.
  - intros [= <- <-]. unfold unread. simpl. intros Hloop.
    split; [reflexivity|].
    eapply scan_loop_aligned; [| |exact Hloop]; auto.
    now rewrite Nat.add_1_r.
  - intros [= <- <-]. simpl. intros Hloop.
    destruct (unread _); simpl in Hloop;
      injection Hloop as <- <- <-; repeat split; auto; intros j Hj; lia.
Qed.

(** [find_next_byte] on a stream that stands at [index]: it returns a
    position of the target when the map has one, and raises [Gaps] when it
    has none. *)
Lemma find_next_byte_aligned (x : list byte) (target : byte) (index : nat) :
  (In target x ->
   exists p fp', find_next_byte {| content := x; pos := index |} target index
                 = (Ok (Some p), fp') /\ nth_error x p = Some target) /\
  (~ In target x ->
   exists fp', find_next_byte {| content := x; pos := index |} target index
               = (Raise Gaps, fp')).
Proof.
  unfold find_next_byte.
  destruct (read1 {| content := x; pos := index |}) as [c fp1] eqn:Hread1.
  destruct (scan_loop None target (unread fp1) c index (pos fp1))
    as [[c1 n1] p1] eqn:Hloop1.
  destruct (scan_loop_after_read Hread1 Hloop1)
    as (Hx & Hc1 & Hle1 & Hno1 & Hstop1).
  destruct (is_byte c1 target) eqn:Hfound1.
  { apply is_byte_true in Hfound1. split.
    - intros _. do 2 eexists. split; [reflexivity | congruence].
    - intros Hout. exfalso. apply Hout.
      apply nth_error_In with (n := n1). congruence. }
  assert (Hend : c1 = None).
  { destruct Hstop1 as [H|[H|H]]; [|assumption|discriminate].
    apply is_byte_true in H. congruence. }
  rewrite Hend in Hc1. rewrite Hend. simpl at_end. cbv iota.
  change (seek_to (standing_at fp1 p1) 0)
    with {| content := content fp1; pos := 0 |}.
  rewrite Hx.
  destruct (read1 {| content := x; pos := 0 |}) as [c2 fp4] eqn:Hread2.
  destruct (scan_loop (Some index) target (unread fp4) c2 0 (pos fp4))
    as [[c3 n3] p3] eqn:Hloop2.
  destruct (scan_loop_after_read Hread2 Hloop2)
    as (_ & Hc3 & _ & Hno3 & Hstop3).
  destruct (is_byte c3 target) eqn:Hfound3.
  { apply is_byte_true in Hfound3. split.
    - intros _. do 2 eexists. split; [reflexivity | congruence].
    - intros Hout. exfalso. apply Hout.
      apply nth_error_In with (n := n3). congruence. }
  split; [|intros _; eexists; reflexivity].
  intros Hin. exfalso. apply In_nth_error in Hin. destruct Hin as [q Hq].
  assert (Hq1 : q < index).
  { destruct (Nat.lt_ge_cases q index) as [|Hge]; [assumption|].
    exfalso. symmetry in Hc1. apply nth_error_None in Hc1.
    assert (q < length x) by (apply nth_error_Some; congruence).
    apply (Hno1 q); [lia | assumption]. }
  assert (Hq3 : n3 <= q).
  { destruct (Nat.le_gt_cases n3 q) as [|Hlt]; [assumption|].
    exfalso. apply (Hno3 q); [lia | assumption]. }
  destruct Hstop3 as [H|[H|H]].
  - apply is_byte_true in H. congruence.
  - rewrite H in Hc3. symmetry in Hc3. apply nth_error_None in Hc3.
    assert (q < length x) by (apply nth_error_Some; congruence). lia.
  - simpl in H. apply Nat.ltb_ge in H. lia.
Qed.

(** The function never falls off its end: it returns a position or
    raises, wherever the stream stands. *)
Lemma find_next_byte_returns (fp : stream) (target : byte) (index : nat) :
  (exists p fp', find_next_byte fp target index = (Ok (Some p), fp')) \/
  (exists fp', find_next_byte fp target index = (Raise Gaps, fp')).
Proof.
  unfold find_next_byte.
  destruct (read1 fp) as [c fp1].
  assert (Hloop : forall limit rest c n p,
            let '(c', _, _) := scan_loop limit target rest c n p in
            c' = None \/ is_byte c' target = true \/
            (limit <> None /\ c' <> None)).
  { clear. intros limit. induction rest as [|c1 rest IH]; intros [c|] n p;
      simpl; auto.
    - destruct limit as [index|]; simpl.
      + destruct (n <? index); simpl.
        * destruct (Byte.eqb c target) eqn:E; simpl; auto.
        * right. right. split; discriminate.
      + destruct (Byte.eqb c target) eqn:E; simpl; auto.
    - destruct limit as [index|]; simpl.
      + destruct (n <? index); simpl.
        * destruct (Byte.eqb c target) eqn:E; simpl; auto. apply IH.
        * right. right. split; discriminate.
      + destruct (Byte.eqb c target) eqn:E; simpl; auto. apply IH. }
  pose proof (Hloop None (unread fp1) c index (pos fp1)) as H1.
  destruct (scan_loop None target (unread fp1) c index (pos fp1))
    as [[c1 n1] p1].
  destruct (is_byte c1 target) eqn:E1; [left; eauto|].
  destruct H1 as [->|[H1|[H1 _]]]; [|congruence|congruence].
  simpl. destruct (read1 _) as [c2 fp4].
  destruct (scan_loop (Some index) target (unread fp4) c2 0 (pos fp4))
    as [[c3 n3] p3].
  destruct (is_byte c3 target); [left | right]; eauto.
Qed.

(** In the streaming loop the stream stands one byte after the position
    just returned, but that position is passed on as [index]: the second
    call counts from one too few.  On any map that starts with two
    different bytes, those two bytes are both encoded as position 0. *)
Lemma encrypt_streaming_off_by_one (a b : byte) (rest : list byte) :
  encrypt_streaming (a :: b :: rest) [a; b]
  = {| written := [0; 0]; outcome := Finished |} /\
  decrypt_in_memory (a :: b :: rest) [0%Z; 0%Z]
  = {| written := [a; a]; outcome := Finished |}.
Proof.
  split;
    [|apply (decrypt_in_memory_correct (ps := [0; 0])); repeat constructor].
  unfold encrypt_streaming. simpl.
  unfold find_next_byte, read1, unread. simpl.
  rewrite byte_eqb_refl. simpl.
  destruct rest as [|c rest]; simpl;
    repeat (rewrite byte_eqb_refl; simpl); reflexivity.
Qed.

(* ------------------------------------------------------------------ *)
(** ** The properties of the specification *)

(** Membership of a byte in a list, by running the test. *)
Lemma In_by_test (b : byte) (l : list byte) :
  existsb (Byte.eqb b) l = true -> In b l.
Proof.
  intros H. apply existsb_exists in H. destruct H as (c & Hin & Hc).
  apply byte_eqb_eq in Hc. now subst.
Defined.

(** A freshly built object holds, under a byte value that occurs once in
    the map, the one position of that value, with the cursor on it. *)
Lemma single_occurrence (content : list byte) (strict : bool) (g g' : rng)
    (self : EncryptMap.t) (b : byte) :
  EncryptMap.init content strict g = (Ok self, g') ->
  count_occ Byte.byte_eq_dec content b = 1 ->
  exists p,
    Dict.get (EncryptMap.map self) b
    = Some {| TrackedList.index := 0; TrackedList.list := [p] |} /\
    nth_error content p = Some b.
Proof.
  intros Hinit Hone.
  destruct (init_inv Hinit) as (_ & _ & _ & Hidx & Hfresh).
  destruct (Hidx b) as (tl & Hget & Hperm & _).
  pose proof (Hfresh b tl Hget) as Hix.
  pose proof (Permutation_length Hperm) as Hlen.
  rewrite positions_length, Hone in Hlen.
  destruct tl as [ix l]. simpl in *. subst ix.
  destruct l as [|p [|q l]]; try discriminate.
  exists p. split; [assumption|].
  apply In_positions_0. apply (Permutation_in _ Hperm). now left.
Qed.

(** C1.  Round trip in strict mode.  When the map holds every byte value,
    and holds each value at least as often as the plaintext [B] does, the
    in-memory encryption of [B] in strict mode runs to its end and writes
    positions [P], and the in-memory decoder, reading [P] against the same
    map, writes exactly [B]. *)
Theorem round_trip_strict (content B : list byte) (g : rng) :
  (forall v, In v content) ->
  (forall v, count_occ Byte.byte_eq_dec B v
             <= count_occ Byte.byte_eq_dec content v) ->
  exists P,
    encrypt_in_memory content true g B
    = {| written := P; outcome := Finished |} /\
    decrypt_in_memory content (map Z.of_nat P)
    = {| written := B; outcome := Finished |}.
Proof.
  intros Hall Hcount. unfold encrypt_in_memory.
  pose proof (init_full true g Hall) as Hinit. rewrite Hinit.
  destruct (init_inv Hinit) as (_ & _ & _ & Hidx & Hfresh).
  destruct (strict_loop_round_trip (input := B) Hidx) as (P & Hloop & HP).
  - intros b tl Hget. rewrite (Hfresh b tl Hget), Nat.add_0_r.
    destruct (Hidx b) as (tl0 & Hget0 & Hperm & _).
    assert (tl0 = tl) by congruence. subst tl0.
    rewrite (Permutation_length Hperm), positions_length. apply Hcount.
  - exists P. split; [exact Hloop | now apply decrypt_in_memory_correct].
Qed.

Lemma round_trip_strict_witness :
  (forall v, In v all_bytes) /\
  (forall v, count_occ Byte.byte_eq_dec [x41; x42] v
             <= count_occ Byte.byte_eq_dec all_bytes v) /\
  exists P,
    encrypt_in_memory all_bytes true counting_rng [x41; x42]
    = {| written := P; outcome := Finished |} /\
    decrypt_in_memory all_bytes (map Z.of_nat P)
    = {| written := [x41; x42]; outcome := Finished |}.
Proof.
  assert (Hall : forall v, In v all_bytes)
    by (intros v; destruct v; apply In_by_test; vm_compute; reflexivity).
  assert (Hcount : forall v, count_occ Byte.byte_eq_dec [x41; x42] v
                             <= count_occ Byte.byte_eq_dec all_bytes v)
    by (intros v; destruct v; apply Nat.leb_le; vm_compute; reflexivity).
  split; [exact Hall|]. split; [exact Hcount|].
  exact (round_trip_strict counting_rng Hall Hcount).
Defined.








(** C3 fails on the code.  In the streaming loop the second call finds the
    stream one byte after the position the first call returned, while
    [index] is that position: on the map [0x10, 0x20, 0x10], with the stream
    at 1 and [index] 0, the target [0x20] is found at once and position 0 is
    returned, where the map holds [0x10].  The plaintext [0x10, 0x20] is
    thus encrypted to the lines 0, 0, which decrypt to [0x10, 0x10]. *)
Theorem find_next_byte_misaligned :
  find_next_byte {| content := sample_map; pos := 0 |} x10 0
  = (Ok (Some 0), {| content := sample_map; pos := 1 |}) /\
  find_next_byte {| content := sample_map; pos := 1 |} x20 0
  = (Ok (Some 0), {| content := sample_map; pos := 2 |}) /\
  nth_error sample_map 0 = Some x10 /\
  encrypt_streaming sample_map [x10; x20]
  = {| written := [0; 0]; outcome := Finished |} /\
  decrypt_in_memory sample_map [0%Z; 0%Z]
  = {| written := [x10; x10]; outcome := Finished |}.
Proof. repeat split. Qed.

(** C4.  Strict-mode exhaustion.  On a map that holds every byte value
    and the value [0x41] exactly once, the strict encryption of "AA"
    encodes the first byte, raises the [MapError] of an exhausted list
    ([MapTooSmall]) on the second, and the program exits with status 1.
    In general, a strict [encode] on a byte value whose cursor has passed
    the last entry of its list raises that error and returns no
    position. *)
Theorem strict_exhaustion :
  (forall (content : list byte) (g : rng),
     (forall v, In v content) ->
     count_occ Byte.byte_eq_dec content x41 = 1 ->
     exists p self self1 g',
       EncryptMap.init content true g = (Ok self, g') /\
       EncryptMap.encode self x41 = (Ok p, self1) /\
       EncryptMap.encode self1 x41 = (Raise MapTooSmall, self1) /\
       encrypt_in_memory content true g [x41; x41]
       = {| written := [p]; outcome := Exit 1 |}) /\
  (forall (self : EncryptMap.t) (byte : byte) (tl : TrackedList.t),
     EncryptMap.strict self = true ->
     Dict.get (EncryptMap.map self) byte = Some tl ->
     length (TrackedList.list tl) <= TrackedList.index tl ->
     EncryptMap.encode self byte = (Raise MapTooSmall, self)).
Proof.
  split.
  - intros content g Hall Hone.
    pose proof (init_full true g Hall) as Hinit.
    destruct (single_occurrence Hinit Hone) as (p & Hget & _).
    destruct (init_inv Hinit) as (_ & Hs & _).
    set (self := {| EncryptMap.strict := true;
                    EncryptMap.map :=
                      fst (EncryptMap.shuffle
                             (EncryptMap.scan content 0 []) g) |}) in *.
    set (tl := {| TrackedList.index := 0; TrackedList.list := [p] |}) in *.
    assert (H1 : EncryptMap.encode self x41
                 = (Ok p, with_cursor self x41 tl 1))
      by (apply (encode_next Hget); reflexivity).
    assert (H2 : EncryptMap.encode (with_cursor self x41 tl 1) x41
                 = (Raise MapTooSmall, with_cursor self x41 tl 1)).
    { eapply encode_exhausted_strict.
      - simpl. apply get_set_same.
      - simpl. lia.
      - exact Hs. }
    exists p, self, (with_cursor self x41 tl 1). eexists.
    split; [exact Hinit|]. split; [exact H1|]. split; [exact H2|].
    unfold encrypt_in_memory. rewrite Hinit. simpl encrypt_loop.
    rewrite H1, H2. reflexivity.
  - intros self byte tl Hs Hget Hle.
    exact (encode_exhausted_strict Hget Hle Hs).
Qed.

Lemma strict_exhaustion_witness :
  (forall v, In v all_bytes) /\
  count_occ Byte.byte_eq_dec all_bytes x41 = 1 /\
  exists p self self1 g',
    EncryptMap.init all_bytes true zero_rng = (Ok self, g') /\
    EncryptMap.encode self x41 = (Ok p, self1) /\
    EncryptMap.encode self1 x41 = (Raise MapTooSmall, self1) /\
    encrypt_in_memory all_bytes true zero_rng [x41; x41]
    = {| written := [p]; outcome := Exit 1 |}.
Proof.
  assert (Hall : forall v, In v all_bytes)
    by (intros v; destruct v; apply In_by_test; vm_compute; reflexivity).
  assert (Hone : count_occ Byte.byte_eq_dec all_bytes x41 = 1)
    by (vm_compute; reflexivity).
  split; [exact Hall|]. split; [exact Hone|].
  exact (proj1 strict_exhaustion all_bytes zero_rng Hall Hone).
Defined.

(** The lines written before a failing call stay written. *)
Lemma encrypt_loop_aborted (before after : list byte) (byte : byte)
    (message : String.string) :
  forall self ps self1 self2,
    encodes self before ps self1 ->
    EncryptMap.encode self1 byte = (Raise (MapError message), self2) ->
    encrypt_loop self (before ++ byte :: after)
    = {| written := ps; outcome := Exit 1 |}.
Proof.
  induction before as [|b before IH]; intros self ps self1 self2 Hcalls Hfail.
  - inversion Hcalls; subst. simpl. now rewrite Hfail.
  - inversion Hcalls as [|? ? p s1 ? qs ? Henc Hrest]; subst. simpl.
    rewrite Henc. now rewrite (IH _ _ _ _ Hrest Hfail).
Qed.

(** C5, as the code has it.  When a strict encryption stops on
    [MapTooSmall] partway through the plaintext, the program exits with
    status 1 and the output keeps the lines written so far: exactly the
    positions returned for the bytes before the failing one.  Nothing is
    discarded. *)
Theorem strict_failure_keeps_output (content : list byte) (g g' : rng)
    (self self1 : EncryptMap.t) (before after : list byte) (byte : byte)
    (ps : list nat) :
  EncryptMap.init content true g = (Ok self, g') ->
  encodes self before ps self1 ->
  EncryptMap.encode self1 byte = (Raise MapTooSmall, self1) ->
  encrypt_in_memory content true g (before ++ byte :: after)
  = {| written := ps; outcome := Exit 1 |}.
Proof.
  intros Hinit Hcalls Hfail. unfold encrypt_in_memory. rewrite Hinit.
  exact (encrypt_loop_aborted after Hcalls Hfail).
Qed.

Lemma strict_failure_keeps_output_witness :
  EncryptMap.init all_bytes true zero_rng
  = (Ok (all_bytes_index true), zero_rng) /\
  encodes (all_bytes_index true) [x41] [65] (after_A true) /\
  EncryptMap.encode (after_A true) x41 = (Raise MapTooSmall, after_A true) /\
  encrypt_in_memory all_bytes true zero_rng ([x41] ++ x41 :: [x42])
  = {| written := [65]; outcome := Exit 1 |}.
Proof.
  assert (Hinit : EncryptMap.init all_bytes true zero_rng
                  = (Ok (all_bytes_index true), zero_rng))
    by (vm_compute; reflexivity).
  assert (H1 : EncryptMap.encode (all_bytes_index true) x41
               = (Ok 65, after_A true)) by (vm_compute; reflexivity).
  assert (Hcalls : encodes (all_bytes_index true) [x41] [65] (after_A true))
    by (econstructor; [exact H1 | constructor]).
  assert (Hfail : EncryptMap.encode (after_A true) x41
                  = (Raise MapTooSmall, after_A true))
    by (vm_compute; reflexivity).
  split; [exact Hinit|]. split; [exact Hcalls|]. split; [exact Hfail|].
  exact (strict_failure_keeps_output [x42] Hinit Hcalls Hfail).
Defined.

(** C5 fails as stated: on the map of the 256 byte values in order, the
    strict encryption of "AA" writes the line 65 for the first byte, then
    exits with status 1 on the second; the line written is still in the
    output. *)
Lemma strict_failure_output_not_discarded :
  encrypt_in_memory all_bytes true zero_rng [x41; x41]
  = {| written := [65]; outcome := Exit 1 |} /\
  written (encrypt_in_memory all_bytes true zero_rng [x41; x41]) <> [].
Proof. split; [vm_compute; reflexivity | vm_compute; discriminate]. Qed.

(** C6.  Non-strict reuse.  On a map that holds every byte value and the
    value [0x41] exactly once, the non-strict encryption of "AA" runs to
    its end and writes two lines, the second equal to the first, a position
    of [0x41]: the first call leaves the cursor of [0x41] at 1, past the
    only entry of its list, and the second call, on that exhausted list,
    returns the same position and leaves the cursor at 1 again.  In
    general, a non-strict [encode] on a byte value whose cursor has passed
    the last entry of its list puts the cursor back to the start of the
    list as it is, returns its first position, and leaves the cursor
    after it: in the object returned the cursor of that value is 1,
    wherever it was, its list is the same, and the other values are as
    they were. *)
Theorem nonstrict_reuse :
  (forall (content : list byte) (g : rng),
     (forall v, In v content) ->
     count_occ Byte.byte_eq_dec content x41 = 1 ->
     exists p self self1 self2 g',
       EncryptMap.init content false g = (Ok self, g') /\
       Dict.get (EncryptMap.map self) x41
       = Some {| TrackedList.index := 0; TrackedList.list := [p] |} /\
       EncryptMap.encode self x41 = (Ok p, self1) /\
       Dict.get (EncryptMap.map self1) x41
       = Some {| TrackedList.index := 1; TrackedList.list := [p] |} /\
       EncryptMap.encode self1 x41 = (Ok p, self2) /\
       Dict.get (EncryptMap.map self2) x41
       = Some {| TrackedList.index := 1; TrackedList.list := [p] |} /\
       encrypt_in_memory content false g [x41; x41]
       = {| written := [p; p]; outcome := Finished |} /\
       nth_error content p = Some x41) /\
  (forall (self : EncryptMap.t) (byte : byte) (tl : TrackedList.t) (p : nat),
     EncryptMap.strict self = false ->
     Dict.get (EncryptMap.map self) byte = Some tl ->
     length (TrackedList.list tl) <= TrackedList.index tl ->
     nth_error (TrackedList.list tl) 0 = Some p ->
     exists self1,
       EncryptMap.encode self byte = (Ok p, self1) /\
       self1 = with_cursor self byte tl 1 /\
       Dict.get (EncryptMap.map self1) byte
       = Some {| TrackedList.index := 1;
                 TrackedList.list := TrackedList.list tl |} /\
       (forall b, b <> byte ->
          Dict.get (EncryptMap.map self1) b
          = Dict.get (EncryptMap.map self) b) /\
       EncryptMap.strict self1 = false).
Proof.
  assert (Hgeneral :
    forall (self : EncryptMap.t) (byte : byte) (tl : TrackedList.t)
           (p : nat),
      EncryptMap.strict self = false ->
      Dict.get (EncryptMap.map self) byte = Some tl ->
      length (TrackedList.list tl) <= TrackedList.index tl ->
      nth_error (TrackedList.list tl) 0 = Some p ->
      exists self1,
        EncryptMap.encode self byte = (Ok p, self1) /\
        self1 = with_cursor self byte tl 1 /\
        Dict.get (EncryptMap.map self1) byte
        = Some {| TrackedList.index := 1;
                  TrackedList.list := TrackedList.list tl |} /\
        (forall b, b <> byte ->
           Dict.get (EncryptMap.map self1) b
           = Dict.get (EncryptMap.map self) b) /\
        EncryptMap.strict self1 = false).
  { intros self byte tl p Hs Hget Hle Hp.
    exists (with_cursor self byte tl 1).
    split; [exact (encode_exhausted_reuse Hget Hle Hs Hp)|].
    split; [reflexivity|]. split; [simpl; apply get_set_same|].
    split; [|exact Hs].
    intros b Hne. simpl. apply get_set_other. congruence. }
  split; [|exact Hgeneral].
  intros content g Hall Hone.
  pose proof (init_full false g Hall) as Hinit.
  destruct (single_occurrence Hinit Hone) as (p & Hget & Hp).
  destruct (init_inv Hinit) as (_ & Hs & _).
  set (self := {| EncryptMap.strict := false;
                  EncryptMap.map :=
                    fst (EncryptMap.shuffle
                           (EncryptMap.scan content 0 []) g) |}) in *.
  set (tl := {| TrackedList.index := 0; TrackedList.list := [p] |}) in *.
  assert (H1 : EncryptMap.encode self x41
               = (Ok p, with_cursor self x41 tl 1))
    by (apply (encode_next Hget); reflexivity).
  assert (Hget1 : Dict.get (EncryptMap.map (with_cursor self x41 tl 1)) x41
                  = Some {| TrackedList.index := 1;
                            TrackedList.list := [p] |})
    by (simpl; apply get_set_same).
  destruct (Hgeneral (with_cursor self x41 tl 1) x41 _ p Hs Hget1
              (le_n 1) eq_refl) as (self2 & H2 & _ & Hget2 & _).
  exists p, self, (with_cursor self x41 tl 1), self2. eexists.
  split; [exact Hinit|]. split; [exact Hget|]. split; [exact H1|].
  split; [exact Hget1|]. split; [exact H2|]. split; [exact Hget2|].
  split; [|exact Hp].
  unfold encrypt_in_memory. rewrite Hinit. simpl encrypt_loop.
  rewrite H1, H2. reflexivity.
Qed.

Lemma nonstrict_reuse_witness :
  (forall v, In v all_bytes) /\
  count_occ Byte.byte_eq_dec all_bytes x41 = 1 /\
  (exists p self self1 self2 g',
     EncryptMap.init all_bytes false zero_rng = (Ok self, g') /\
     Dict.get (EncryptMap.map self) x41
     = Some {| TrackedList.index := 0; TrackedList.list := [p] |} /\
     EncryptMap.encode self x41 = (Ok p, self1) /\
     Dict.get (EncryptMap.map self1) x41
     = Some {| TrackedList.index := 1; TrackedList.list := [p] |} /\
     EncryptMap.encode self1 x41 = (Ok p, self2) /\
     Dict.get (EncryptMap.map self2) x41
     = Some {| TrackedList.index := 1; TrackedList.list := [p] |} /\
     encrypt_in_memory all_bytes false zero_rng [x41; x41]
     = {| written := [p; p]; outcome := Finished |} /\
     nth_error all_bytes p = Some x41) /\
  Dict.get (EncryptMap.map (twice_after_AA false)) x41
  = Some {| TrackedList.index := 2; TrackedList.list := [321; 65] |} /\
  exists self1,
    EncryptMap.encode (twice_after_AA false) x41 = (Ok 321, self1) /\
    Dict.get (EncryptMap.map self1) x41
    = Some {| TrackedList.index := 1; TrackedList.list := [321; 65] |}.
Proof.
  assert (Hall : forall v, In v all_bytes)
    by (intros v; destruct v; apply In_by_test; vm_compute; reflexivity).
  assert (Hone : count_occ Byte.byte_eq_dec all_bytes x41 = 1)
    by (vm_compute; reflexivity).
  assert (Hs : EncryptMap.strict (twice_after_AA false) = false)
    by (vm_compute; reflexivity).
  assert (Hget : Dict.get (EncryptMap.map (twice_after_AA false)) x41
                 = Some {| TrackedList.index := 2;
                           TrackedList.list := [321; 65] |})
    by (vm_compute; reflexivity).
  split; [exact Hall|]. split; [exact Hone|]. split.
  - exact (proj1 nonstrict_reuse all_bytes zero_rng Hall Hone).
  - split; [exact Hget|].
    destruct (proj2 nonstrict_reuse (twice_after_AA false) x41 _ 321
                Hs Hget (le_n 2) eq_refl) as (self1 & H1 & _ & Hget1 & _).
    exists self1. split; [exact H1 | exact Hget1].
Defined.

(** C7.  Construction and gaps.  When some byte value is missing from the
    map, the constructor raises the [Gaps] error and the random source is
    left untouched: the shuffle has not run.  The constructor returns an
    object exactly when every byte value occurs in the map, and then every
    byte value has a key whose list is not empty. *)
Theorem construction_gaps (content : list byte) (strict : bool) (g : rng) :
  ((exists b, ~ In b content) ->
   EncryptMap.init content strict g = (Raise Gaps, g)) /\
  ((exists self g', EncryptMap.init content strict g = (Ok self, g'))
   <-> forall b, In b content) /\
  (forall self g',
     EncryptMap.init content strict g = (Ok self, g') ->
     forall b, exists tl,
       Dict.get (EncryptMap.map self) b = Some tl /\
       TrackedList.list tl <> []).
Proof.
  split; [|split].
  - intros [b Hb]. apply init_gaps. intros Hall. now apply Hb.
  - split.
    + intros (self & g' & Hinit). now destruct (init_inv Hinit).
    + intros Hall. do 2 eexists. now apply init_full.
  - intros self g' Hinit b.
    destruct (init_inv Hinit) as (_ & _ & _ & Hidx & _).
    destruct (Hidx b) as (tl & Hget & _ & Hne). eauto.
Qed.

Lemma construction_gaps_witness :
  (exists b, ~ In b sample_map) /\
  EncryptMap.init sample_map true counting_rng = (Raise Gaps, counting_rng).
Proof.
  assert (Hmiss : exists b, ~ In b sample_map).
  { exists x00. simpl. intros [H|[H|[H|[]]]]; discriminate. }
  split; [exact Hmiss|].
  exact (proj1 (construction_gaps sample_map true counting_rng) Hmiss).
Defined.

(** C8.  The shuffle keeps the positions.  For a map the constructor
    accepts and every byte value, the list of that value after the shuffle
    holds the same positions as before it, the same number of times: the
    two lists sort to the same list, and the one before the shuffle is the
    ascending list of the positions of the value in the map. *)
Theorem shuffle_preserves_positions (content : list byte) (strict : bool)
    (g g' : rng) (self : EncryptMap.t) :
  EncryptMap.init content strict g = (Ok self, g') ->
  forall b, exists original shuffled,
    Dict.get (EncryptMap.scan content 0 []) b = Some original /\
    Dict.get (EncryptMap.map self) b = Some shuffled /\
    TrackedList.list original = positions b content 0 /\
    sorted (TrackedList.list shuffled) = sorted (TrackedList.list original) /\
    Permutation (TrackedList.list shuffled) (TrackedList.list original) /\
    length (TrackedList.list shuffled) = length (TrackedList.list original).
Proof.
  intros Hinit b.
  destruct (init_inv Hinit) as (Hall & _ & Hmap & _).
  destruct (scan_indexes Hall b) as (tl & Hget & _ & _).
  pose proof (shuffle_get (EncryptMap.scan content 0 []) g b) as Hsh.
  rewrite Hget, <- Hmap in Hsh.
  destruct (Dict.get (EncryptMap.map self) b) as [tl'|]; [|contradiction].
  destruct Hsh as [_ Hperm]. exists tl, tl'.
  split; [exact Hget|]. split; [reflexivity|]. split.
  - rewrite scan_get_fresh in Hget.
    destruct (positions b content 0); [discriminate|].
    now injection Hget as <-.
  - split; [now apply sorted_perm|].
    split; [assumption | now apply Permutation_length].
Qed.

Lemma shuffle_preserves_positions_witness :
  exists self g',
    EncryptMap.init (all_bytes ++ all_bytes) true counting_rng = (Ok self, g')
    /\ exists original shuffled,
      Dict.get (EncryptMap.scan (all_bytes ++ all_bytes) 0 []) x42
      = Some original /\
      Dict.get (EncryptMap.map self) x42 = Some shuffled /\
      TrackedList.list original = positions x42 (all_bytes ++ all_bytes) 0 /\
      sorted (TrackedList.list shuffled) = sorted (TrackedList.list original)
      /\ Permutation (TrackedList.list shuffled) (TrackedList.list original)
      /\ length (TrackedList.list shuffled)
         = length (TrackedList.list original).
Proof.
  assert (Hinit : EncryptMap.init (all_bytes ++ all_bytes) true counting_rng
                  = (Ok {| EncryptMap.strict := true;
                           EncryptMap.map :=
                             fst (EncryptMap.shuffle
                                    (EncryptMap.scan (all_bytes ++ all_bytes)
                                       0 []) counting_rng) |},
                     snd (EncryptMap.shuffle
                            (EncryptMap.scan (all_bytes ++ all_bytes) 0 [])
                            counting_rng)))
    by (vm_compute; reflexivity).
  do 2 eexists. split; [exact Hinit|].
  exact (shuffle_preserves_positions Hinit x42).
Defined.

(** C9.  No reuse in strict mode.  On an object built in strict mode, the
    positions returned by any sequence of [encode] calls that all return
    are pairwise distinct.  The reasons are the ones the claim gives: every
    list holds distinct positions, and the lists of two different byte
    values share no position. *)
Theorem strict_no_reuse (content : list byte) (g g' : rng)
    (self self' : EncryptMap.t) (bytes : list byte) (ps : list nat) :
  EncryptMap.init content true g = (Ok self, g') ->
  encodes self bytes ps self' ->
  NoDup ps /\
  (forall b tl, Dict.get (EncryptMap.map self) b = Some tl ->
     NoDup (TrackedList.list tl)) /\
  (forall b b' tl tl' p,
     Dict.get (EncryptMap.map self) b = Some tl ->
     Dict.get (EncryptMap.map self) b' = Some tl' ->
     In p (TrackedList.list tl) -> In p (TrackedList.list tl') -> b = b').
Proof.
  intros Hinit Hcalls.
  destruct (init_inv Hinit) as (_ & Hs & _ & Hidx & _).
  split; [|split].
  - now destruct (strict_calls_distinct Hcalls Hs Hidx).
  - intros b tl Hget. exact (indexes_NoDup Hidx Hget).
  - intros b b' tl tl' p Hb Hb' Hp Hp'.
    exact (indexes_disjoint Hidx Hb Hb' Hp Hp').
Qed.

Lemma strict_no_reuse_witness :
  exists self',
    EncryptMap.init (all_bytes ++ all_bytes) true zero_rng
    = (Ok (twice_index true), zero_rng_after) /\
    encodes (twice_index true) [x41; x42; x41] [321; 322; 65] self' /\
    NoDup [321; 322; 65].
Proof.
  assert (Hinit : EncryptMap.init (all_bytes ++ all_bytes) true zero_rng
                  = (Ok (twice_index true), zero_rng_after))
    by (vm_compute; reflexivity).
  assert (Hcalls : exists self',
             encodes (twice_index true) [x41; x42; x41] [321; 322; 65] self').
  { eexists.
    apply encodes_cons
      with (self1 := snd (EncryptMap.encode (twice_index true) x41));
      [vm_compute; reflexivity|].
    apply encodes_cons
      with (self1 := snd (EncryptMap.encode
                            (snd (EncryptMap.encode (twice_index true) x41))
                            x42));
      [vm_compute; reflexivity|].
    eapply encodes_cons; [vm_compute; reflexivity | apply encodes_nil]. }
  destruct Hcalls as [self' Hcalls]. exists self'.
  split; [exact Hinit|]. split; [exact Hcalls|].
  exact (proj1 (strict_no_reuse Hinit Hcalls)).
Defined.

(** C10.  Non-strict [encode] is total after construction.  On an object
    built in non-strict mode, every sequence of [encode] calls, on any
    byte values and of any length, returns a position at every call, so
    the encryption runs to its end with one line per plaintext byte.  In
    every state so reached every byte value still has its key and a list
    that is not empty, so [KeyError] cannot arise, and a further call
    returns a position: the first one of the list when the cursor has
    passed its end. *)
Theorem nonstrict_encode_total (content : list byte) (g g' : rng)
    (self : EncryptMap.t) (bytes : list byte) :
  EncryptMap.init content false g = (Ok self, g') ->
  exists ps self',
    encodes self bytes ps self' /\
    length ps = length bytes /\
    encrypt_in_memory content false g bytes
    = {| written := ps; outcome := Finished |} /\
    forall byte, exists tl p self'',
      Dict.get (EncryptMap.map self') byte = Some tl /\
      TrackedList.list tl <> [] /\
      EncryptMap.encode self' byte = (Ok p, self'') /\
      (length (TrackedList.list tl) <= TrackedList.index tl ->
       nth_error (TrackedList.list tl) 0 = Some p).
Proof.
  intros Hinit.
  destruct (init_inv Hinit) as (_ & Hs & _ & Hidx & _).
  destruct (encodes_nonstrict bytes Hs Hidx) as (ps & self' & Hcalls & Hlen & _).
  destruct (encodes_keeps Hcalls Hidx) as [Hs' Hidx'].
  exists ps, self'. split; [assumption|]. split; [assumption|]. split.
  - unfold encrypt_in_memory. rewrite Hinit.
    apply encrypt_loop_finished. eauto.
  - intros byte.
    destruct (encode_nonstrict byte (eq_trans Hs' Hs) Hidx')
      as (tl & p & self'' & Hget & Henc & _ & Hreuse).
    destruct (Hidx' byte) as (tl0 & Hget0 & _ & Hne).
    assert (tl0 = tl) by congruence. subst tl0.
    exists tl, p, self''. repeat split; auto.
    intros Hle. now destruct (Hreuse Hle).
Qed.

Lemma nonstrict_encode_total_witness :
  EncryptMap.init all_bytes false zero_rng
  = (Ok (all_bytes_index false), zero_rng) /\
  exists ps self',
    encodes (all_bytes_index false) [x41; x41; x41] ps self' /\
    length ps = 3 /\
    encrypt_in_memory all_bytes false zero_rng [x41; x41; x41]
    = {| written := ps; outcome := Finished |} /\
    forall byte, exists tl p self'',
      Dict.get (EncryptMap.map self') byte = Some tl /\
      TrackedList.list tl <> [] /\
      EncryptMap.encode self' byte = (Ok p, self'') /\
      (length (TrackedList.list tl) <= TrackedList.index tl ->
       nth_error (TrackedList.list tl) 0 = Some p).
Proof.
  assert (Hinit : EncryptMap.init all_bytes false zero_rng
                  = (Ok (all_bytes_index false), zero_rng))
    by (vm_compute; reflexivity).
  split; [exact Hinit|].
  exact (nonstrict_encode_total [x41; x41; x41] Hinit).
Defined.

(* ------------------------------------------------------------------ *)
(** ** [find_next_byte] in closed form *)

Lemma first_index_Some (b : byte) (l : list byte) (d : nat) :
  first_index b l = Some d ->
  nth_error l d = Some b /\ forall j, j < d -> nth_error l j <> Some b.
Proof.
  revert d. induction l as [|c l IH]; intros d H; simpl in H; [discriminate|].
  byte_cases c b.
  - injection H as <-. split; [reflexivity | intros j Hj; lia].
  - destruct (first_index b l) as [d'|]; [|discriminate].
    injection H as <-. destruct (IH d' eq_refl) as [Hd Hbefore].
    split; [exact Hd|]. intros [|j] Hj; simpl; [congruence|].
    apply Hbefore. lia.
Qed.

Lemma first_index_None (b : byte) (l : list byte) :
  first_index b l = None <-> ~ In b l.
Proof.
  induction l as [|c l IH]; simpl; [tauto|].
  byte_cases c b.
  - split; [discriminate | tauto].
  - destruct (first_index b l) as [d|]; simpl.
    + split; [discriminate|]. intros Hout. exfalso.
      assert (H : ~ In b l) by tauto. apply IH in H. discriminate.
    + split; [|reflexivity]. intros _ [H|H]; [congruence|].
      now apply (proj1 IH).
Qed.

Lemma first_index_cons (b c : byte) (l : list byte) :
  first_index b (c :: l)
  = if Byte.eqb c b then Some 0 else option_map S (first_index b l).
Proof. reflexivity. Qed.

(** Equal tuples of numbers, component by component. *)
Ltac tuple_eq :=
  repeat match goal with |- (_, _) = (_, _) => f_equal end;
  try reflexivity; try lia.

(** The first loop, in closed form: it stops on the first occurrence of
    the target in what is read, or at the end of the stream. *)
Lemma scan_loop_forward (target : byte) :
  forall rest c n p,
    scan_loop None target rest (Some c) n p =
    match first_index target (c :: rest) with
    | Some d => (Some target, n + d, p + d)
    | None => (None, n + length (c :: rest), p + length rest)
    end.
Proof.
  induction rest as [|c1 rest IH]; intros c n p.
  - simpl. byte_cases c target; simpl.
    + now rewrite !Nat.add_0_r.
    + now rewrite Nat.add_0_r.
  - rewrite (first_index_cons target c (c1 :: rest)).
    cbn [scan_loop below andb].
    byte_cases c target; cbn [negb].
    + now rewrite !Nat.add_0_r.
    + rewrite IH. destruct (first_index target (c1 :: rest)) as [d|];
        cbn [option_map length]; tuple_eq.
Qed.

(** The second loop, entered at [n <= index]: it stops on the first
    occurrence of the target among the bytes up to position [index], or
    on a byte that is not the target. *)
Lemma scan_loop_bounded (target : byte) (index : nat) :
  forall rest c n p,
    n <= index ->
    match first_index target (firstn (index - n + 1) (c :: rest)) with
    | Some d =>
        scan_loop (Some index) target rest (Some c) n p
        = (Some target, n + d, p + d)
    | None =>
        is_byte (fst (fst (scan_loop (Some index) target rest (Some c) n p)))
          target = false
    end.
Proof.
  induction rest as [|c1 rest IH]; intros c n p Hn;
    replace (index - n + 1) with (S (index - n)) by lia;
    rewrite firstn_cons, first_index_cons; cbn [scan_loop below].
  - byte_cases c target.
    + rewrite andb_false_r. now rewrite !Nat.add_0_r.
    + rewrite firstn_nil. simpl option_map. cbv iota.
      destruct (n <? index); simpl; [reflexivity|].
      now apply byte_eqb_neq.
  - byte_cases c target.
    + rewrite andb_false_r. now rewrite !Nat.add_0_r.
    + rewrite andb_true_r. destruct (Nat.ltb_spec n index) as [Hlt|Hge].
      * specialize (IH c1 (n + 1) (p + 1) ltac:(lia)).
        replace (index - (n + 1) + 1) with (index - n) in IH by lia.
        destruct (first_index target (firstn (index - n) (c1 :: rest)))
          as [d|]; simpl option_map; cbv iota.
        -- rewrite IH. tuple_eq.
        -- exact IH.
      * replace (index - n) with 0 by lia. simpl.
        now apply byte_eqb_neq.
Qed.

(** The two passes of [find_next_byte] put together. *)
Lemma find_next_byte_cases (fp : stream) (target : byte)
    (index : nat) :
  match first_index target (unread fp) with
  | Some d =>
      find_next_byte fp target index
      = (Ok (Some (index + d)), standing_at fp (pos fp + d + 1))
  | None =>
      match first_index target (firstn (index + 1) (content fp)) with
      | Some q =>
          find_next_byte fp target index
          = (Ok (Some q), standing_at fp (q + 1))
      | None =>
          exists fp', find_next_byte fp target index = (Raise Gaps, fp')
      end
  end.
Proof.
  destruct fp as [x ps]. unfold find_next_byte, read1, unread. simpl content.
  simpl pos.
  assert (Hwrap :
    match first_index target (firstn (index + 1) x) with
    | Some q =>
        (let (current_byte, fp4) := read1 {| content := x; pos := 0 |} in
         let '(current_byte0, new_index, p) :=
           scan_loop (Some index) target (unread fp4) current_byte 0
             (pos fp4) in
         if is_byte current_byte0 target
         then (Ok (Some new_index), standing_at fp4 p)
         else (Raise Gaps, standing_at fp4 p))
        = (Ok (Some q), {| content := x; pos := q + 1 |})
    | None =>
        exists fp',
        (let (current_byte, fp4) := read1 {| content := x; pos := 0 |} in
         let '(current_byte0, new_index, p) :=
           scan_loop (Some index) target (unread fp4) current_byte 0
             (pos fp4) in
         if is_byte current_byte0 target
         then (Ok (Some new_index), standing_at fp4 p)
         else (Raise Gaps, standing_at fp4 p))
        = (Raise Gaps, fp')
    end).
  { unfold read1, unread. simpl. destruct x as [|c0 x0].
    - rewrite firstn_nil. simpl. eexists. reflexivity.
    - simpl nth_error. cbv iota. simpl pos. simpl content.
      change (skipn 1 (c0 :: x0)) with x0.
      pose proof (scan_loop_bounded target (index := index) x0 c0 1
                    (Nat.le_0_l index)) as H.
      rewrite Nat.sub_0_r in H.
      destruct (first_index target (firstn (index + 1) (c0 :: x0))) as [q|].
      + rewrite H. simpl is_byte. rewrite byte_eqb_refl.
        unfold standing_at. simpl. repeat f_equal. lia.
      + destruct (scan_loop (Some index) target x0 (Some c0) 0 1)
          as [[c3 n3] p3]. simpl in H. rewrite H. eexists. reflexivity. }
  destruct (nth_error x ps) as [c|] eqn:E.
  - rewrite (nth_error_skipn_cons E). simpl pos. simpl content.
    replace (ps + 1) with (S ps) by lia.
    rewrite scan_loop_forward.
    destruct (first_index target (c :: skipn (S ps) x)) as [d|].
    + simpl is_byte. rewrite byte_eqb_refl. unfold standing_at. simpl.
      repeat f_equal. lia.
    + simpl is_byte. simpl at_end. cbv iota.
      change (seek_to (standing_at {| content := x; pos := S ps |}
                         (S ps + length (skipn (S ps) x))) 0)
        with {| content := x; pos := 0 |}.
      exact Hwrap.
  - assert (Hnil : skipn ps x = [])
      by (apply skipn_all2; now apply nth_error_None).
    rewrite Hnil. simpl first_index. cbv iota. simpl pos. simpl content.
    rewrite Hnil. simpl scan_loop. simpl is_byte. simpl at_end. cbv iota.
    change (seek_to (standing_at {| content := x; pos := ps |} ps) 0)
      with {| content := x; pos := 0 |}.
    exact Hwrap.
Qed.

(** X1.  What [find_next_byte] computes, wherever the stream stands.
    When the target occurs in what the stream still holds, at offset [d]
    from its position, the value is [index + d] and the stream is left
    just after the match.  Otherwise the function wraps and returns the
    first occurrence of the target among the positions [0 .. index],
    leaving the stream just after it; when there is none it raises
    [Gaps]. *)
Theorem find_next_byte_closed_form (fp : stream) (target : byte)
    (index : nat) :
  match first_index target (unread fp) with
  | Some d =>
      find_next_byte fp target index
      = (Ok (Some (index + d)), standing_at fp (pos fp + d + 1))
  | None =>
      match first_index target (firstn (index + 1) (content fp)) with
      | Some q =>
          find_next_byte fp target index
          = (Ok (Some q), standing_at fp (q + 1))
      | None =>
          exists fp', find_next_byte fp target index = (Raise Gaps, fp')
      end
  end.
Proof. exact (find_next_byte_cases fp target index). Qed.

(* ------------------------------------------------------------------ *)
(** ** The streaming encoder *)

Lemma forward_positions_hold (l : list byte) (input : list byte) :
  forall start qs,
    forward_positions l start input = Some qs ->
    Forall2 (fun q b => nth_error l q = Some b) qs input.
Proof.
  induction input as [|b input IH]; intros start qs H; simpl in H.
  - injection H as <-. constructor.
  - destruct (first_index b (skipn start l)) as [d|] eqn:Ed; [|discriminate].
    destruct (forward_positions l (start + d + 1) input) as [qs'|] eqn:Eq;
      [|discriminate].
    injection H as <-. constructor; [|eapply IH; eassumption].
    apply first_index_Some in Ed. destruct Ed as [Hd _].
    now rewrite nth_error_skipn in Hd.
Qed.

Lemma encrypt_streaming_loop_drift (input : list byte) :
  forall fp index k qs,
    index + k = pos fp ->
    forward_positions (content fp) (pos fp) input = Some qs ->
    encrypt_streaming_loop fp index input
    = {| written := drifted k qs; outcome := Finished |}.
Proof.
  induction input as [|b input IH]; intros fp index k qs Hk H; simpl in H.
  - injection H as <-. reflexivity.
  - pose proof (find_next_byte_cases fp b index) as Hcall.
    unfold unread in Hcall.
    destruct (first_index b (skipn (pos fp) (content fp))) as [d|];
      [|discriminate].
    destruct (forward_positions (content fp) (pos fp + d + 1) input)
      as [qs'|] eqn:Eq; [|discriminate].
    injection H as <-. simpl. rewrite Hcall.
    rewrite (IH (standing_at fp (pos fp + d + 1)) (index + d) (k + 1) qs').
    + unfold emit. simpl. do 2 f_equal. lia.
    + simpl. lia.
    + exact Eq.
Qed.

(** X2.  The streaming encoder, as long as it never has to wrap.  When
    every plaintext byte is found ahead of the match of the one before, at
    the map positions [qs], the run ends normally but line [k] (from 0) is
    the position of byte [k] lowered by [k]: the stream stands one byte
    after each match while the position returned is passed on as the
    count to resume from.  Only the first line is the position of its
    byte. *)
Theorem encrypt_streaming_drift (map_bytes input : list byte)
    (qs : list nat) :
  forward_positions map_bytes 0 input = Some qs ->
  encrypt_streaming map_bytes input
  = {| written := drifted 0 qs; outcome := Finished |} /\
  Forall2 (fun q b => nth_error map_bytes q = Some b) qs input.
Proof.
  intros H. split.
  - now apply encrypt_streaming_loop_drift.
  - eapply forward_positions_hold; eassumption.
Qed.

Lemma encrypt_streaming_drift_witness :
  forward_positions [x10; x20; x30; x20] 0 [x10; x20; x20] = Some [0; 1; 3] /\
  encrypt_streaming [x10; x20; x30; x20] [x10; x20; x20]
  = {| written := [0; 0; 1]; outcome := Finished |} /\
  Forall2 (fun q b => nth_error [x10; x20; x30; x20] q = Some b)
    [0; 1; 3] [x10; x20; x20].
Proof.
  assert (H : forward_positions [x10; x20; x30; x20] 0 [x10; x20; x20]
              = Some [0; 1; 3]) by reflexivity.
  split; [exact H|].
  exact (encrypt_streaming_drift H).
Defined.

(** X3.  A one-byte plaintext in streaming mode: the line written is the
    position of the first occurrence of the byte in the map, and when the
    map does not hold the byte the run dies of the uncaught [Gaps] error
    with nothing written. *)
Theorem encrypt_streaming_first_byte (map_bytes : list byte) (b : byte) :
  match first_index b map_bytes with
  | Some q =>
      encrypt_streaming map_bytes [b]
      = {| written := [q]; outcome := Finished |} /\
      nth_error map_bytes q = Some b
  | None =>
      encrypt_streaming map_bytes [b]
      = {| written := []; outcome := Uncaught Gaps |}
  end.
Proof.
  unfold encrypt_streaming. simpl.
  pose proof (find_next_byte_cases
                {| content := map_bytes; pos := 0 |} b 0) as Hcall.
  unfold unread in Hcall. simpl in Hcall.
  destruct (first_index b map_bytes) as [q|] eqn:Eq.
  - rewrite Hcall. split; [reflexivity|].
    now apply first_index_Some in Eq.
  - assert (Hnone : first_index b (firstn 1 map_bytes) = None).
    { apply first_index_None. intros Hin. apply first_index_None in Eq.
      apply Eq. rewrite <- (firstn_skipn 1 map_bytes).
      apply in_or_app. now left. }
    replace (match map_bytes with [] => [] | a :: _ => [a] end)
      with (firstn 1 map_bytes) in Hcall by (now destruct map_bytes).
    rewrite Hnone in Hcall. destruct Hcall as [fp' ->]. reflexivity.
Qed.

(* ------------------------------------------------------------------ *)
(** ** [assess_file] *)

Lemma list_set_length (x : list nat) (i v : nat) :
  length (list_set x i v) = length x.
Proof.
  revert i. induction x as [|a x IH]; intros [|i]; simpl; auto.
Qed.

Lemma nth_list_set (x : list nat) (i j v : nat) :
  i < length x ->
  nth j (list_set x i v) 0 = if i =? j then v else nth j x 0.
Proof.
  revert i j. induction x as [|a x IH]; intros i j Hlt; simpl in *; [lia|].
  destruct i as [|i], j as [|j]; simpl; auto.
  apply IH. lia.
Qed.

Lemma to_nat_inj (a b : byte) : Byte.to_nat a = Byte.to_nat b -> a = b.
Proof.
  intros H. assert (Some a = Some b); [|congruence].
  now rewrite <- (Byte.of_to_nat a), <- (Byte.of_to_nat b), H.
Qed.

(** The counter of a byte value after the loop: what it was, plus the
    occurrences of the value in the bytes read. *)
Lemma assess_loop_counts :
  forall rest c byte_counts p,
    length byte_counts = 256 ->
    length (fst (assess_loop rest (Some c) byte_counts p)) = 256 /\
    (forall b,
       nth (Byte.to_nat b) (fst (assess_loop rest (Some c) byte_counts p)) 0
       = nth (Byte.to_nat b) byte_counts 0
         + count_occ Byte.byte_eq_dec (c :: rest) b) /\
    snd (assess_loop rest (Some c) byte_counts p) = p + length rest.
Proof.
  assert (Hstep : forall c byte_counts,
            length byte_counts = 256 ->
            length (increment byte_counts (Byte.to_nat c)) = 256 /\
            forall b, nth (Byte.to_nat b)
                        (increment byte_counts (Byte.to_nat c)) 0
                      = nth (Byte.to_nat b) byte_counts 0
                        + count_occ Byte.byte_eq_dec [c] b).
  { intros c bc Hlen. unfold increment. split.
    - now rewrite list_set_length.
    - intros b. pose proof (Byte.to_nat_bounded c) as Hc.
      rewrite nth_list_set by lia. simpl.
      destruct (Byte.byte_eq_dec c b) as [->|Hne].
      + now rewrite Nat.eqb_refl.
      + destruct (Nat.eqb_spec (Byte.to_nat c) (Byte.to_nat b)) as [Heq|_].
        * apply to_nat_inj in Heq. contradiction.
        * lia. }
  induction rest as [|c1 rest IH]; intros c bc p Hlen;
    destruct (Hstep c bc Hlen) as [Hlen1 Hcount1].
  - simpl assess_loop. simpl fst. simpl snd.
    split; [exact Hlen1|]. split; [exact Hcount1 | simpl; lia].
  - cbn [assess_loop].
    destruct (IH c1 (increment bc (Byte.to_nat c)) (p + 1) Hlen1)
      as (H1 & H2 & H3).
    split; [exact H1|]. split.
    + intros b. rewrite H2, Hcount1.
      change (c :: c1 :: rest) with ([c] ++ c1 :: rest).
      rewrite count_occ_app. lia.
    + rewrite H3. simpl. lia.
Qed.

Lemma fold_min_spec (l : list nat) (a : nat) :
  (fold_left Nat.min l a = a \/ In (fold_left Nat.min l a) l) /\
  fold_left Nat.min l a <= a /\
  Forall (le (fold_left Nat.min l a)) l.
Proof.
  revert a. induction l as [|x l IH]; intros a; simpl.
  - auto.
  - destruct (IH (Nat.min a x)) as (Hin & Hle & Hall).
    split; [|split].
    + destruct Hin as [Heq|Hin]; [|auto].
      rewrite Heq. destruct (Nat.min_spec a x) as [[_ ->]|[_ ->]]; auto.
    + lia.
    + constructor; [lia | assumption].
Qed.

Lemma list_min_spec (l : list nat) :
  l <> [] -> In (list_min l) l /\ Forall (le (list_min l)) l.
Proof.
  destruct l as [|a l]; [contradiction|]. intros _. simpl list_min.
  destruct (fold_min_spec l a) as (Hin & Hle & Hall). split.
  - destruct Hin as [->|Hin]; [now left | now right].
  - now constructor.
Qed.

(** The least counter is the count of some byte value and is at most the
    count of every byte value. *)
Lemma least_count (byte_counts : list nat) (count : byte -> nat) :
  length byte_counts = 256 ->
  (forall b, nth (Byte.to_nat b) byte_counts 0 = count b) ->
  (forall b, list_min byte_counts <= count b) /\
  (exists b, count b = list_min byte_counts).
Proof.
  intros Hlen Hcount.
  assert (Hne : byte_counts <> []) by (intros ->; discriminate).
  destruct (list_min_spec Hne) as [Hin Hall]. split.
  - intros b. rewrite <- Hcount. rewrite Forall_forall in Hall. apply Hall.
    apply nth_In. pose proof (Byte.to_nat_bounded b). lia.
  - apply (In_nth _ _ 0) in Hin. destruct Hin as (i & Hi & Hnth).
    destruct (Byte.of_nat i) as [b|] eqn:Eb.
    + exists b. apply Byte.to_of_nat in Eb. now rewrite <- Hcount, Eb.
    + apply Byte.of_nat_None_iff in Eb. lia.
Qed.

(** What [assess_file] returns, prints and leaves. *)
Lemma assess_file_reads (map_fp : stream) (silent : bool) :
  exists minimum,
    (forall b, minimum <= count_occ Byte.byte_eq_dec (unread map_fp) b) /\
    (exists b, count_occ Byte.byte_eq_dec (unread map_fp) b = minimum) /\
    assess_file map_fp silent
    = (negb (minimum =? 0),
       if silent then [] else [assess_message minimum],
       standing_at map_fp (pos map_fp + length (unread map_fp))) /\
    unread (standing_at map_fp (pos map_fp + length (unread map_fp))) = [] /\
    (negb (minimum =? 0) = true <-> forall b, In b (unread map_fp)).
Proof.
  assert (Hfull : forall (items : list byte) (minimum : nat),
            (forall b, minimum <= count_occ Byte.byte_eq_dec items b) ->
            (exists b, count_occ Byte.byte_eq_dec items b = minimum) ->
            negb (minimum =? 0) = true <-> forall b, In b items).
  { intros items m Hle [b0 Hb0]. rewrite negb_true_iff, Nat.eqb_neq. split.
    - intros Hm b. apply (count_occ_In Byte.byte_eq_dec).
      specialize (Hle b). lia.
    - intros Hall Hm. specialize (Hall b0).
      apply (count_occ_In Byte.byte_eq_dec) in Hall. lia. }
  assert (Hend : unread (standing_at map_fp
                           (pos map_fp + length (unread map_fp))) = []).
  { unfold unread, standing_at. simpl. apply skipn_all2.
    rewrite length_skipn. lia. }
  destruct map_fp as [x ps]. unfold assess_file, read1. simpl content.
  simpl pos. unfold unread in *. simpl content in *. simpl pos in *.
  destruct (nth_error x ps) as [c|] eqn:E.
  - pose proof (assess_loop_counts (skipn (ps + 1) x) c (ps + 1)
                  (repeat_length 0 256)) as (Hlen & Hcount & Hpos).
    simpl pos. simpl content.
    destruct (assess_loop (skipn (ps + 1) x) (Some c) (repeat 0 256) (ps + 1))
      as [bc p]. cbn [fst snd] in Hlen, Hcount, Hpos. subst p.
    rewrite (nth_error_skipn_cons E) in *.
    replace (ps + 1) with (S ps) in * by lia.
    assert (Hcount' : forall b, nth (Byte.to_nat b) bc 0
              = count_occ Byte.byte_eq_dec (c :: skipn (S ps) x) b).
    { intros b. rewrite Hcount, nth_repeat. reflexivity. }
    destruct (least_count Hlen Hcount') as [Hle Hex].
    exists (list_min bc). split; [exact Hle|]. split; [exact Hex|].
    split; [|split; [exact Hend | now apply Hfull]].
    unfold standing_at. simpl. repeat f_equal. lia.
  - assert (Hnil : skipn ps x = [])
      by (apply skipn_all2; now apply nth_error_None).
    simpl pos. simpl content. rewrite Hnil in *. cbn [assess_loop].
    change (list_min (repeat 0 256)) with 0.
    exists 0. split; [intros b; simpl; lia|].
    split; [exists x00; reflexivity|].
    split; [|split; [exact Hend | now apply Hfull; [intros b; simpl; lia
                                                    | exists x00]]].
    cbn [length]. now rewrite Nat.add_0_r.
Qed.

(** X4.  [assess_file] reads the stream from where it stands to its end
    and leaves it there.  The minimum it prints (unless [silent]) is the
    least number of occurrences of a byte value in what it read, and the
    value returned is [True] exactly when every one of the 256 byte values
    occurs there. *)
Theorem assess_file_counts (map_fp : stream) (silent : bool) :
  exists minimum,
    (forall b, minimum <= count_occ Byte.byte_eq_dec (unread map_fp) b) /\
    (exists b, count_occ Byte.byte_eq_dec (unread map_fp) b = minimum) /\
    assess_file map_fp silent
    = (negb (minimum =? 0),
       if silent then [] else [assess_message minimum],
       standing_at map_fp (pos map_fp + length (unread map_fp))) /\
    unread (standing_at map_fp (pos map_fp + length (unread map_fp))) = [] /\
    (negb (minimum =? 0) = true <-> forall b, In b (unread map_fp)).
Proof. exact (assess_file_reads map_fp silent). Qed.

(** X5.  [assess_file] and the constructor agree: read from its start, a
    map file is assessed [True] exactly when [EncryptMap] can be built
    from it, and assessed [False] exactly when the constructor raises
    [Gaps]. *)
Theorem assess_file_agrees_with_init (map_bytes : list byte)
    (silent strict : bool) (g : rng) :
  (fst (fst (assess_file {| content := map_bytes; pos := 0 |} silent)) = true
   <-> exists self g', EncryptMap.init map_bytes strict g = (Ok self, g')) /\
  (fst (fst (assess_file {| content := map_bytes; pos := 0 |} silent)) = false
   <-> EncryptMap.init map_bytes strict g = (Raise Gaps, g)).
Proof.
  destruct (assess_file_reads {| content := map_bytes; pos := 0 |} silent)
    as (m & _ & _ & Heq & _ & Hiff).
  rewrite Heq. cbn [fst]. unfold unread in Hiff. simpl in Hiff.
  destruct (all_or_missing map_bytes) as [Hall|[b Hb]].
  - rewrite (proj2 Hiff Hall). split.
    + split; [|reflexivity]. intros _. do 2 eexists. now apply init_full.
    + rewrite (init_full strict g Hall). split; discriminate.
  - assert (Hmiss : ~ forall b, In b map_bytes)
      by (intros Hall; now apply Hb).
    destruct (negb (m =? 0)) eqn:E.
    + exfalso. now apply Hmiss, Hiff.
    + rewrite (init_gaps strict g Hmiss). split.
      * split; [discriminate|]. intros (self & g' & H). discriminate.
      * split; reflexivity.
Qed.

(* ------------------------------------------------------------------ *)
(** ** More on the in-memory encoder *)

(** X6.  Round trip in non-strict mode.  When the map holds every byte
    value, the non-strict encryption of any plaintext runs to its end
    with one line per byte, whatever the number of occurrences, and the
    in-memory decoder gives the plaintext back. *)
Theorem round_trip_nonstrict (content B : list byte) (g : rng) :
  (forall v, In v content) ->
  exists P,
    encrypt_in_memory content false g B
    = {| written := P; outcome := Finished |} /\
    length P = length B /\
    decrypt_in_memory content (map Z.of_nat P)
    = {| written := B; outcome := Finished |}.
Proof.
  intros Hall. unfold encrypt_in_memory.
  pose proof (init_full false g Hall) as Hinit. rewrite Hinit.
  destruct (init_inv Hinit) as (_ & Hs & _ & Hidx & _).
  destruct (encodes_nonstrict B Hs Hidx) as (P & self' & Hcalls & Hlen & HP).
  exists P. split; [apply encrypt_loop_finished; eauto|].
  split; [exact Hlen | now apply decrypt_in_memory_correct].
Qed.

Lemma round_trip_nonstrict_witness :
  (forall v, In v all_bytes) /\
  exists P,
    encrypt_in_memory all_bytes false zero_rng [x41; x41; x42]
    = {| written := P; outcome := Finished |} /\
    length P = 3 /\
    decrypt_in_memory all_bytes (map Z.of_nat P)
    = {| written := [x41; x41; x42]; outcome := Finished |}.
Proof.
  assert (Hall : forall v, In v all_bytes)
    by (intros v; destruct v; apply In_by_test; vm_compute; reflexivity).
  split; [exact Hall|].
  exact (round_trip_nonstrict [x41; x41; x42] zero_rng Hall).
Defined.

(** X7.  A map with a missing byte value cannot be used in memory at all:
    the constructor raises [Gaps] outside the [try] of the main loop, so
    the run dies of the uncaught error with nothing written, in either
    mode and whatever the plaintext, even an empty one or one that never
    uses the missing value. *)
Theorem encrypt_in_memory_gaps (content : list byte) (strict : bool)
    (g : rng) (input : list byte) :
  (exists b, ~ In b content) ->
  encrypt_in_memory content strict g input
  = {| written := []; outcome := Uncaught Gaps |}.
Proof.
  intros [b Hb]. unfold encrypt_in_memory.
  rewrite init_gaps; [reflexivity|]. intros Hall. now apply Hb.
Qed.

Lemma encrypt_in_memory_gaps_witness :
  (exists b, ~ In b sample_map) /\
  encrypt_in_memory sample_map false zero_rng [x10]
  = {| written := []; outcome := Uncaught Gaps |}.
Proof.
  assert (Hmiss : exists b, ~ In b sample_map).
  { exists x00. simpl. intros [H|[H|[H|[]]]]; discriminate. }
  split; [exact Hmiss|].
  exact (encrypt_in_memory_gaps false zero_rng [x10] Hmiss).
Defined.

Lemma with_cursor_cursors_in (self : EncryptMap.t) (byte : byte)
    (tl : TrackedList.t) (i : nat) :
  i <= length (TrackedList.list tl) ->
  cursors_in (EncryptMap.map self) ->
  cursors_in (EncryptMap.map (with_cursor self byte tl i)).
Proof.
  intros Hi Hin b tl' Hget. simpl in Hget.
  destruct (Byte.byte_eq_dec byte b) as [<-|Hne].
  - rewrite get_set_same in Hget. injection Hget as <-. exact Hi.
  - rewrite get_set_other in Hget by assumption. eapply Hin; eassumption.
Qed.

(** After a call that returned the entry under the cursor, the rest of
    the plaintext has enough positions left exactly when the plaintext
    had. *)
Lemma enough_left_step (self : EncryptMap.t) (b : byte)
    (tl : TrackedList.t) (input : list byte) :
  Dict.get (EncryptMap.map self) b = Some tl ->
  enough_left
    (EncryptMap.map (with_cursor self b tl (TrackedList.index tl + 1))) input
  <-> enough_left (EncryptMap.map self) (b :: input).
Proof.
  intros Hget. unfold enough_left. simpl EncryptMap.map. split.
  - intros H b' tl' Hget'. destruct (Byte.byte_eq_dec b b') as [<-|Hne].
    + assert (tl' = tl) by congruence. subst tl'.
      specialize (H b _ (get_set_same _ _ _)). simpl in H.
      rewrite count_occ_cons_eq by reflexivity. lia.
    + rewrite count_occ_cons_neq by assumption. apply H.
      now rewrite get_set_other.
  - intros H b' tl' Hget'. destruct (Byte.byte_eq_dec b b') as [<-|Hne].
    + rewrite get_set_same in Hget'. injection Hget' as <-. simpl.
      specialize (H b tl Hget).
      rewrite count_occ_cons_eq in H by reflexivity. lia.
    + rewrite get_set_other in Hget' by assumption.
      specialize (H b' tl' Hget').
      now rewrite count_occ_cons_neq in H by assumption.
Qed.

(** The strict loop from any state whose cursors are inside their lists:
    it ends normally when enough positions are left, and with [exit(1)]
    otherwise; what it wrote decodes to the plaintext it got through. *)
Lemma strict_loop_outcome (content : list byte) (input : list byte) :
  forall self,
    EncryptMap.strict self = true ->
    indexes content (EncryptMap.map self) ->
    cursors_in (EncryptMap.map self) ->
    exists ps,
      ((encrypt_loop self input = {| written := ps; outcome := Finished |} /\
        enough_left (EncryptMap.map self) input /\
        length ps = length input) \/
       (encrypt_loop self input = {| written := ps; outcome := Exit 1 |} /\
        ~ enough_left (EncryptMap.map self) input /\
        length ps < length input)) /\
      Forall2 (fun p b => nth_error content p = Some b)
        ps (firstn (length ps) input).
Proof.
  induction input as [|b input IH]; intros self Hs Hidx Hin.
  - exists []. split; [|constructor]. left. split; [reflexivity|].
    split; [|reflexivity]. intros b tl Hget. simpl. now apply (Hin b).
  - destruct (Hidx b) as (tl & Hget & Hperm & _).
    destruct (cursor_cases tl) as [[p Hp]|Hle].
    + assert (Hlt : TrackedList.index tl < length (TrackedList.list tl))
        by (apply nth_error_Some; congruence).
      destruct (IH (with_cursor self b tl (TrackedList.index tl + 1)))
        as (ps & Hrun & Hdec).
      * exact Hs.
      * now apply with_cursor_indexes.
      * apply with_cursor_cursors_in; [lia | assumption].
      * exists (p :: ps). simpl encrypt_loop. rewrite (encode_next Hget Hp).
        split.
        -- destruct Hrun as [(Hrun & Hroom & Hlen)|(Hrun & Hroom & Hlen)];
             rewrite Hrun; [left | right]; unfold emit; simpl.
           ++ split; [reflexivity|]. split; [|lia].
              now apply (enough_left_step input Hget).
           ++ split; [reflexivity|]. split; [|lia].
              intros H. apply Hroom. now apply (enough_left_step input Hget).
        -- simpl. constructor; [|exact Hdec].
           apply In_positions_0. apply (Permutation_in _ Hperm).
           eapply nth_error_In; eassumption.
    + exists []. split; [|constructor]. right. simpl encrypt_loop.
      rewrite (encode_exhausted_strict Hget Hle Hs).
      split; [reflexivity|]. split; [|simpl; lia].
      intros H. specialize (H b tl Hget).
      rewrite count_occ_cons_eq in H by reflexivity. lia.
Qed.

(** X8.  When strict encryption succeeds and when it does not.  On a map
    that holds every byte value, the strict in-memory encryption of [B]
    ends normally exactly when the map holds every byte value at least as
    often as [B] does, and otherwise exits with status 1 before the end
    of [B].  Either way, what was written decodes to the bytes of [B] the
    run got through. *)
Theorem strict_encryption_outcome (content B : list byte) (g : rng) :
  (forall v, In v content) ->
  exists P,
    ((encrypt_in_memory content true g B
      = {| written := P; outcome := Finished |} /\
      (forall v, count_occ Byte.byte_eq_dec B v
                 <= count_occ Byte.byte_eq_dec content v) /\
      length P = length B) \/
     (encrypt_in_memory content true g B
      = {| written := P; outcome := Exit 1 |} /\
      ~ (forall v, count_occ Byte.byte_eq_dec B v
                   <= count_occ Byte.byte_eq_dec content v) /\
      length P < length B)) /\
    decrypt_in_memory content (map Z.of_nat P)
    = {| written := firstn (length P) B; outcome := Finished |}.
Proof.
  intros Hall. unfold encrypt_in_memory.
  pose proof (init_full true g Hall) as Hinit. rewrite Hinit.
  destruct (init_inv Hinit) as (_ & Hs & _ & Hidx & Hfresh).
  set (self := {| EncryptMap.strict := true;
                  EncryptMap.map :=
                    fst (EncryptMap.shuffle
                           (EncryptMap.scan content 0 []) g) |}) in *.
  assert (Hin : cursors_in (EncryptMap.map self)).
  { intros b tl Hget. rewrite (Hfresh b tl Hget). lia. }
  assert (Hroom : enough_left (EncryptMap.map self) B <->
                  forall v, count_occ Byte.byte_eq_dec B v
                            <= count_occ Byte.byte_eq_dec content v).
  { unfold enough_left. split.
    - intros H v. destruct (Hidx v) as (tl & Hget & Hperm & _).
      specialize (H v tl Hget).
      rewrite (Hfresh v tl Hget), Nat.add_0_r in H.
      now rewrite (Permutation_length Hperm), positions_length in H.
    - intros H b tl Hget. rewrite (Hfresh b tl Hget), Nat.add_0_r.
      destruct (Hidx b) as (tl0 & Hget0 & Hperm & _).
      assert (tl0 = tl) by congruence. subst tl0.
      rewrite (Permutation_length Hperm), positions_length. apply H. }
  destruct (strict_loop_outcome B Hs Hidx Hin) as (P & Hrun & Hdec).
  exists P. split; [|now apply decrypt_in_memory_correct].
  destruct Hrun as [(Hrun & Hleft & Hlen)|(Hrun & Hleft & Hlen)].
  - left. split; [exact Hrun|]. split; [now apply Hroom | exact Hlen].
  - right. split; [exact Hrun|]. split; [|exact Hlen].
    intros H. now apply Hleft, Hroom.
Qed.

Lemma strict_encryption_outcome_witness :
  (forall v, In v all_bytes) /\
  exists P,
    ((encrypt_in_memory all_bytes true zero_rng [x41; x42; x41]
      = {| written := P; outcome := Finished |} /\
      (forall v, count_occ Byte.byte_eq_dec [x41; x42; x41] v
                 <= count_occ Byte.byte_eq_dec all_bytes v) /\
      length P = 3) \/
     (encrypt_in_memory all_bytes true zero_rng [x41; x42; x41]
      = {| written := P; outcome := Exit 1 |} /\
      ~ (forall v, count_occ Byte.byte_eq_dec [x41; x42; x41] v
                   <= count_occ Byte.byte_eq_dec all_bytes v) /\
      length P < 3)) /\
    decrypt_in_memory all_bytes (map Z.of_nat P)
    = {| written := firstn (length P) [x41; x42; x41];
         outcome := Finished |}.
Proof.
  assert (Hall : forall v, In v all_bytes)
    by (intros v; destruct v; apply In_by_test; vm_compute; reflexivity).
  split; [exact Hall|].
  exact (strict_encryption_outcome [x41; x42; x41] zero_rng Hall).
Defined.

(* ------------------------------------------------------------------ *)
(** ** More on the decoders *)





(** X10.  Negative lines in the in-memory decoder.  The slice
    [map_bytes[p : p + 1]] is empty for [p = -1] and for [p] below minus
    the length of the map, so nothing is written; for any other negative
    [p] it is the byte at [p] counted from the end of the map.  No error
    is raised. *)
Theorem decrypt_in_memory_negative (map_bytes : list byte) (p : Z) :
  (p < 0)%Z ->
  decrypt_in_memory map_bytes [p]
  = {| written :=
         if ((p =? -1) || (p <? - Z.of_nat (length map_bytes)))%Z then []
         else chunk_of (nth_error map_bytes
                          (Z.to_nat (Z.of_nat (length map_bytes) + p)));
       outcome := Finished |} /\
  ((- Z.of_nat (length map_bytes) <= p <= -2)%Z ->
   exists b,
     nth_error map_bytes (Z.to_nat (Z.of_nat (length map_bytes) + p))
     = Some b).
Proof.
  intros Hneg. split.
  - simpl. unfold write. simpl. rewrite app_nil_r. f_equal.
    unfold slice, slice_bound.
    destruct (Z.ltb_spec p 0); [|lia].
    destruct (Z.eqb_spec p (-1)) as [->|Hne]; simpl orb.
    + destruct (Z.ltb_spec (-1 + 1) 0); [lia|].
      replace (Z.to_nat (Z.min (-1 + 1) (Z.of_nat (length map_bytes))
                         - Z.max (-1 + Z.of_nat (length map_bytes)) 0))
        with 0 by lia.
      reflexivity.
    + destruct (Z.ltb_spec (p + 1) 0); [|lia].
      destruct (Z.ltb_spec p (- Z.of_nat (length map_bytes))).
      * rewrite !Z.max_r by lia. reflexivity.
      * rewrite !Z.max_l by lia.
        replace (p + 1 + Z.of_nat (length map_bytes)
                 - (p + Z.of_nat (length map_bytes)))%Z with 1%Z by lia.
        replace (p + Z.of_nat (length map_bytes))%Z
          with (Z.of_nat (length map_bytes) + p)%Z by lia.
        change (Z.to_nat 1) with 1.
        destruct (nth_error map_bytes
                    (Z.to_nat (Z.of_nat (length map_bytes) + p)))
          as [b|] eqn:E.
        -- now apply firstn_skipn_one.
        -- apply nth_error_None in E. lia.
  - intros Hrange.
    destruct (nth_error map_bytes
                (Z.to_nat (Z.of_nat (length map_bytes) + p))) as [b|] eqn:E;
      [eauto|].
    apply nth_error_None in E. lia.
Qed.

Lemma decrypt_in_memory_negative_witness :
  (-2 < 0)%Z /\
  decrypt_in_memory sample_map [(-2)%Z]
  = {| written := [x20]; outcome := Finished |}.
Proof.
  assert (H : (-2 < 0)%Z) by lia.
  split; [exact H|].
  exact (proj1 (decrypt_in_memory_negative sample_map H)).
Defined.



(* ------------------------------------------------------------------ *)
(** ** What [encode] keeps and what it hands out *)

Lemma keys_set_present (V : Type) (d : Dict.t V) (k : byte) (v0 v : V) :
  Dict.get d k = Some v0 -> Dict.keys (Dict.set d k v) = Dict.keys d.
Proof.
  induction d as [|[k' v'] d IH]; simpl; [discriminate|].
  byte_cases k' k; simpl; [reflexivity|].
  intros H. f_equal. now apply IH.
Qed.

Lemma store_keeps (self : EncryptMap.t) (byte : byte)
    (tl tl' : TrackedList.t) :
  Dict.get (EncryptMap.map self) byte = Some tl ->
  TrackedList.list tl' = TrackedList.list tl ->
  EncryptMap.strict (EncryptMap.store self byte tl') = EncryptMap.strict self
  /\ Dict.keys (EncryptMap.map (EncryptMap.store self byte tl'))
     = Dict.keys (EncryptMap.map self)
  /\ forall b, list_of (EncryptMap.map (EncryptMap.store self byte tl')) b
               = list_of (EncryptMap.map self) b.
Proof.
  intros Hget Hlist. split; [reflexivity|]. split.
  - simpl. eapply keys_set_present; eassumption.
  - intros b. unfold list_of. simpl.
    destruct (Byte.byte_eq_dec byte b) as [<-|Hne].
    + rewrite get_set_same, Hget. simpl. now rewrite Hlist.
    + now rewrite get_set_other.
Qed.

(** X12.  [encode] only moves cursors.  Whatever the object, the byte and
    the outcome of the call (a position or an exception), the object
    afterwards has the same mode, the same keys in the same order, and
    under every key the same list of positions in the same order. *)
Theorem encode_moves_cursors_only (self self1 : EncryptMap.t) (byte : byte)
    (r : result nat) :
  EncryptMap.encode self byte = (r, self1) ->
  EncryptMap.strict self1 = EncryptMap.strict self /\
  Dict.keys (EncryptMap.map self1) = Dict.keys (EncryptMap.map self) /\
  forall b, list_of (EncryptMap.map self1) b
            = list_of (EncryptMap.map self) b.
Proof.
  intros Henc.
  destruct (Dict.get (EncryptMap.map self) byte) as [tl|] eqn:Hget.
  - destruct (cursor_cases tl) as [[p Hp]|Hle].
    + rewrite (encode_next Hget Hp) in Henc. injection Henc as <- <-.
      now apply (store_keeps Hget).
    + destruct (EncryptMap.strict self) eqn:Hs.
      * rewrite (encode_exhausted_strict Hget Hle Hs) in Henc.
        injection Henc as <- <-. auto.
      * destruct (nth_error (TrackedList.list tl) 0) as [p|] eqn:Hp.
        -- rewrite (encode_exhausted_reuse Hget Hle Hs Hp) in Henc.
           injection Henc as <- <-. rewrite <- Hs at 1.
           now apply (store_keeps Hget).
        -- unfold EncryptMap.encode in Henc.
           rewrite Hget, (next_exhausted Hle), Hs in Henc.
           assert (Hempty : length (TrackedList.list (TrackedList.reset tl))
                            <= TrackedList.index (TrackedList.reset tl))
             by (apply nth_error_None in Hp; exact Hp).
           rewrite (next_exhausted Hempty) in Henc.
           injection Henc as <- <-. rewrite <- Hs at 1.
           now apply (store_keeps Hget).
  - unfold EncryptMap.encode in Henc. rewrite Hget in Henc.
    injection Henc as <- <-. auto.
Qed.

Lemma encode_moves_cursors_only_witness :
  EncryptMap.encode (after_A true) x41 = (Raise MapTooSmall, after_A true) /\
  EncryptMap.strict (after_A true) = EncryptMap.strict (after_A true) /\
  Dict.keys (EncryptMap.map (after_A true))
  = Dict.keys (EncryptMap.map (after_A true)) /\
  forall b, list_of (EncryptMap.map (after_A true)) b
            = list_of (EncryptMap.map (after_A true)) b.
Proof.
  assert (H : EncryptMap.encode (after_A true) x41
              = (Raise MapTooSmall, after_A true))
    by (vm_compute; reflexivity).
  split; [exact H|].
  exact (encode_moves_cursors_only H).
Defined.

(** A position [encode] returns is in the list of the byte. *)
Lemma encode_returns_listed (self self1 : EncryptMap.t) (byte : byte)
    (p : nat) :
  EncryptMap.encode self byte = (Ok p, self1) ->
  exists tl, Dict.get (EncryptMap.map self) byte = Some tl /\
             In p (TrackedList.list tl).
Proof.
  intros Henc.
  destruct (Dict.get (EncryptMap.map self) byte) as [tl|] eqn:Hget.
  - exists tl. split; [reflexivity|].
    destruct (cursor_cases tl) as [[q Hq]|Hle].
    + rewrite (encode_next Hget Hq) in Henc. injection Henc as <- _.
      eapply nth_error_In; eassumption.
    + destruct (EncryptMap.strict self) eqn:Hs.
      * rewrite (encode_exhausted_strict Hget Hle Hs) in Henc. discriminate.
      * destruct (nth_error (TrackedList.list tl) 0) as [q|] eqn:Hq.
        -- rewrite (encode_exhausted_reuse Hget Hle Hs Hq) in Henc.
           injection Henc as <- _. eapply nth_error_In; eassumption.
        -- unfold EncryptMap.encode in Henc.
           rewrite Hget, (next_exhausted Hle), Hs in Henc.
           assert (Hempty : length (TrackedList.list (TrackedList.reset tl))
                            <= TrackedList.index (TrackedList.reset tl))
             by (apply nth_error_None in Hq; exact Hq).
           rewrite (next_exhausted Hempty) in Henc. discriminate.
  - unfold EncryptMap.encode in Henc. rewrite Hget in Henc. discriminate.
Qed.

(** X13.  The index stays exact.  After construction and after any
    sequence of [encode] calls that return, in either mode, every
    position returned holds in the map the byte it was returned for, and
    the object still lists a position under a byte value exactly when the
    map holds that value there. *)
Theorem index_stays_exact (content : list byte) (strict : bool) (g g' : rng)
    (self self' : EncryptMap.t) (bytes : list byte) (ps : list nat) :
  EncryptMap.init content strict g = (Ok self, g') ->
  encodes self bytes ps self' ->
  Forall2 (fun p b => nth_error content p = Some b) ps bytes /\
  forall b p,
    (exists tl, Dict.get (EncryptMap.map self') b = Some tl /\
                In p (TrackedList.list tl))
    <-> nth_error content p = Some b.
Proof.
  intros Hinit Hcalls.
  destruct (init_inv Hinit) as (_ & _ & _ & Hidx & _).
  assert (Hexact : forall m, indexes content m -> forall b p,
            (exists tl, Dict.get m b = Some tl /\ In p (TrackedList.list tl))
            <-> nth_error content p = Some b).
  { intros m Hm b p. destruct (Hm b) as (tl & Hget & Hperm & _). split.
    - intros (tl0 & Hget0 & Hin). assert (tl0 = tl) by congruence. subst.
      apply In_positions_0. now apply (Permutation_in _ Hperm).
    - intros Hp. exists tl. split; [assumption|].
      apply (Permutation_in _ (Permutation_sym Hperm)).
      now apply In_positions_0. }
  split.
  - clear Hinit. induction Hcalls
      as [self|self byte p self1 bytes ps self2 Henc Hrest IH];
      [constructor|].
    constructor.
    + apply (Hexact _ Hidx). destruct (encode_returns_listed Henc)
        as (tl & Hget & Hin). eauto.
    + apply IH. now destruct (encode_keeps Henc Hidx).
  - apply Hexact. now destruct (encodes_keeps Hcalls Hidx).
Qed.

Lemma index_stays_exact_witness :
  EncryptMap.init all_bytes false zero_rng
  = (Ok (all_bytes_index false), zero_rng) /\
  encodes (all_bytes_index false) [x41] [65] (after_A false) /\
  Forall2 (fun p b => nth_error all_bytes p = Some b) [65] [x41] /\
  forall b p,
    (exists tl, Dict.get (EncryptMap.map (after_A false)) b = Some tl /\
                In p (TrackedList.list tl))
    <-> nth_error all_bytes p = Some b.
Proof.
  assert (Hinit : EncryptMap.init all_bytes false zero_rng
                  = (Ok (all_bytes_index false), zero_rng))
    by (vm_compute; reflexivity).
  assert (Hcalls : encodes (all_bytes_index false) [x41] [65] (after_A false))
    by (econstructor; [vm_compute; reflexivity | constructor]).
  split; [exact Hinit|]. split; [exact Hcalls|].
  exact (index_stays_exact Hinit Hcalls).
Defined.

(* ------------------------------------------------------------------ *)
(** ** Repeated calls on one byte value *)

Lemma mod_wrap (len x : nat) : (len + x) mod len = x mod len.
Proof.
  replace (len + x) with (x + 1 * len) by lia. apply Nat.Div0.mod_add.
Qed.

(** Non-strict calls on one byte value from a cursor [i]: the list is
    read round and round. *)
Lemma nonstrict_cycle_from (b : byte) (l : list nat) (n : nat) :
  l <> [] ->
  forall self i,
    EncryptMap.strict self = false ->
    Dict.get (EncryptMap.map self) b
    = Some {| TrackedList.index := i; TrackedList.list := l |} ->
    i <= length l ->
    exists self',
      encodes self (repeat b n)
        (map (fun k => nth ((i + k) mod length l) l 0) (seq 0 n)) self'.
Proof.
  intros Hne. induction n as [|n IH]; intros self i Hs Hget Hi.
  - exists self. constructor.
  - assert (Hlen : 0 < length l) by (destruct l; [contradiction|simpl; lia]).
    assert (Hshift : forall j,
              map (fun k => nth ((j + 1 + k) mod length l) l 0) (seq 0 n)
              = map (fun k => nth ((j + k) mod length l) l 0) (seq 1 n)).
    { intros j. rewrite <- seq_shift, map_map. apply map_ext.
      intros k. do 2 f_equal. lia. }
    cbn [repeat seq map]. rewrite Nat.add_0_r.
    destruct (Nat.lt_ge_cases i (length l)) as [Hlt|Hge].
    + assert (Hp : nth_error l i = Some (nth i l 0))
        by now apply nth_error_nth'.
      destruct (IH (with_cursor self b
                      {| TrackedList.index := i; TrackedList.list := l |}
                      (i + 1)) (i + 1)) as [self' Hcalls].
      * exact Hs.
      * simpl. apply get_set_same.
      * lia.
      * exists self'. econstructor; [|rewrite <- Hshift; exact Hcalls].
        rewrite Nat.mod_small by assumption.
        apply (encode_next Hget Hp).
    + assert (i = length l) by lia. subst i.
      assert (Hp : nth_error l 0 = Some (nth 0 l 0))
        by now apply nth_error_nth'.
      destruct (IH (with_cursor self b
                      {| TrackedList.index := length l;
                         TrackedList.list := l |} 1) 1) as [self' Hcalls].
      * exact Hs.
      * simpl. apply get_set_same.
      * lia.
      * exists self'. rewrite Nat.Div0.mod_same.
        econstructor; [exact (encode_exhausted_reuse Hget (le_n _) Hs Hp)|].
        rewrite <- Hshift.
        replace (map (fun k => nth ((length l + 1 + k) mod length l) l 0)
                   (seq 0 n))
          with (map (fun k => nth ((1 + k) mod length l) l 0) (seq 0 n));
          [exact Hcalls|].
        apply map_ext. intros k. f_equal.
        replace (length l + 1 + k) with (length l + (1 + k)) by lia.
        now rewrite mod_wrap.
Qed.

(** X14.  Reuse goes round the list.  In non-strict mode, [n] calls in a
    row on one byte value, from a freshly built object, all return, and
    call [k] (from 0) returns entry [k mod len] of the shuffled list of
    that value, [len] being its length: the list is replayed in the same
    order, never shuffled again. *)
Theorem nonstrict_reuse_cycles (content : list byte) (g g' : rng)
    (self : EncryptMap.t) (b : byte) (tl : TrackedList.t) (n : nat) :
  EncryptMap.init content false g = (Ok self, g') ->
  Dict.get (EncryptMap.map self) b = Some tl ->
  exists self',
    encodes self (repeat b n)
      (map (fun k => nth (k mod length (TrackedList.list tl))
                       (TrackedList.list tl) 0) (seq 0 n)) self'.
Proof.
  intros Hinit Hget.
  destruct (init_inv Hinit) as (_ & Hs & _ & Hidx & Hfresh).
  destruct (Hidx b) as (tl0 & Hget0 & _ & Hne).
  assert (tl0 = tl) by congruence. subst tl0.
  pose proof (Hfresh b tl Hget) as Hix.
  destruct tl as [i l]. simpl in *. subst i.
  exact (nonstrict_cycle_from n Hne Hs Hget (Nat.le_0_l _)).
Qed.

Lemma nonstrict_reuse_cycles_witness :
  exists self',
    EncryptMap.init (all_bytes ++ all_bytes) false zero_rng
    = (Ok (twice_index false), zero_rng_after) /\
    Dict.get (EncryptMap.map (twice_index false)) x41
    = Some {| TrackedList.index := 0; TrackedList.list := [321; 65] |} /\
    encodes (twice_index false) (repeat x41 5) [321; 65; 321; 65; 321] self'.
Proof.
  assert (Hinit : EncryptMap.init (all_bytes ++ all_bytes) false zero_rng
                  = (Ok (twice_index false), zero_rng_after))
    by (vm_compute; reflexivity).
  assert (Hget : Dict.get (EncryptMap.map (twice_index false)) x41
                 = Some {| TrackedList.index := 0;
                           TrackedList.list := [321; 65] |})
    by (vm_compute; reflexivity).
  destruct (nonstrict_reuse_cycles 5 Hinit Hget) as [self' Hcalls].
  exists self'. split; [exact Hinit|]. split; [exact Hget | exact Hcalls].
Defined.

(** Strict calls on one byte value from a cursor [i]: the rest of the
    list, in order, and the cursor ends at the end. *)
Lemma strict_order_from (b : byte) (l : list nat) (n : nat) :
  forall self i,
    EncryptMap.strict self = true ->
    Dict.get (EncryptMap.map self) b
    = Some {| TrackedList.index := i; TrackedList.list := l |} ->
    i + n = length l ->
    exists self',
      encodes self (repeat b n) (skipn i l) self' /\
      EncryptMap.strict self' = true /\
      Dict.get (EncryptMap.map self') b
      = Some {| TrackedList.index := length l; TrackedList.list := l |}.
Proof.
  induction n as [|n IH]; intros self i Hs Hget Hi.
  - rewrite Nat.add_0_r in Hi. subst i. exists self.
    rewrite skipn_all. split; [constructor | auto].
  - assert (Hp : nth_error l i = Some (nth i l 0))
      by (apply nth_error_nth'; lia).
    destruct (IH (with_cursor self b
                    {| TrackedList.index := i; TrackedList.list := l |}
                    (i + 1)) (i + 1)) as (self' & Hcalls & Hs' & Hget').
    + exact Hs.
    + simpl. apply get_set_same.
    + lia.
    + exists self'. split; [|auto].
      rewrite (nth_error_skipn_cons Hp). cbn [repeat].
      econstructor; [apply (encode_next Hget Hp)|].
      replace (S i) with (i + 1) by lia. exact Hcalls.
Qed.

(** X15.  Strict mode hands a list out once, in order.  On a freshly
    built strict object, as many calls in a row on one byte value as the
    map has occurrences of it all return, and return the shuffled list of
    that value from its first entry to its last; the next call on that
    value raises [MapTooSmall]. *)
Theorem strict_hands_out_in_order (content : list byte) (g g' : rng)
    (self : EncryptMap.t) (b : byte) (tl : TrackedList.t) :
  EncryptMap.init content true g = (Ok self, g') ->
  Dict.get (EncryptMap.map self) b = Some tl ->
  length (TrackedList.list tl) = count_occ Byte.byte_eq_dec content b /\
  exists self',
    encodes self (repeat b (count_occ Byte.byte_eq_dec content b))
      (TrackedList.list tl) self' /\
    EncryptMap.encode self' b = (Raise MapTooSmall, self').
Proof.
  intros Hinit Hget.
  destruct (init_inv Hinit) as (_ & Hs & _ & Hidx & Hfresh).
  destruct (Hidx b) as (tl0 & Hget0 & Hperm & _).
  assert (tl0 = tl) by congruence. subst tl0.
  pose proof (Hfresh b tl Hget) as Hix.
  assert (Hlen : length (TrackedList.list tl)
                 = count_occ Byte.byte_eq_dec content b)
    by now rewrite (Permutation_length Hperm), positions_length.
  split; [exact Hlen|].
  destruct tl as [i l]. simpl in *. subst i. rewrite <- Hlen.
  destruct (strict_order_from (n := length l) Hs Hget eq_refl)
    as (self' & Hcalls & Hs' & Hget').
  exists self'. split; [exact Hcalls|].
  apply (encode_exhausted_strict Hget'); [simpl; lia | exact Hs'].
Qed.

Lemma strict_hands_out_in_order_witness :
  EncryptMap.init (all_bytes ++ all_bytes) true zero_rng
  = (Ok (twice_index true), zero_rng_after) /\
  Dict.get (EncryptMap.map (twice_index true)) x41
  = Some {| TrackedList.index := 0; TrackedList.list := [321; 65] |} /\
  2 = count_occ Byte.byte_eq_dec (all_bytes ++ all_bytes) x41 /\
  exists self',
    encodes (twice_index true)
      (repeat x41 (count_occ Byte.byte_eq_dec (all_bytes ++ all_bytes) x41))
      [321; 65] self' /\
    EncryptMap.encode self' x41 = (Raise MapTooSmall, self').
Proof.
  assert (Hinit : EncryptMap.init (all_bytes ++ all_bytes) true zero_rng
                  = (Ok (twice_index true), zero_rng_after))
    by (vm_compute; reflexivity).
  assert (Hget : Dict.get (EncryptMap.map (twice_index true)) x41
                 = Some {| TrackedList.index := 0;
                           TrackedList.list := [321; 65] |})
    by (vm_compute; reflexivity).
  split; [exact Hinit|]. split; [exact Hget|].
  exact (strict_hands_out_in_order Hinit Hget).
Defined.

(* ------------------------------------------------------------------ *)
(** ** [find_next_byte] on a stream that stands at [index] *)

(** X16.  [find_next_byte] as its docstring puts it, under the condition
    its only caller does not keep: when the stream stands at [index], the
    value is the position of the first occurrence of the target at or
    after [index], or else, after one wrap, of its first occurrence in
    the map; the stream is left just after it.  [Gaps] is raised exactly
    when the map does not hold the target. *)
Theorem find_next_byte_at_index (x : list byte) (target : byte)
    (index : nat) :
  (exists p fp',
     find_next_byte {| content := x; pos := index |} target index
     = (Ok (Some p), fp') /\
     nth_error x p = Some target /\
     pos fp' = p + 1 /\
     ((index <= p /\
       forall j, index <= j < p -> nth_error x j <> Some target) \/
      (p < index /\
       (forall j, index <= j -> nth_error x j <> Some target) /\
       forall j, j < p -> nth_error x j <> Some target))) \/
  (~ In target x /\
   exists fp',
     find_next_byte {| content := x; pos := index |} target index
     = (Raise Gaps, fp')).
Proof.
  pose proof (find_next_byte_cases
                {| content := x; pos := index |} target index) as H.
  unfold unread in H. simpl content in H. simpl pos in H.
  destruct (first_index target (skipn index x)) as [d|] eqn:Ed.
  - left. apply first_index_Some in Ed. destruct Ed as [Hd Hbefore].
    rewrite nth_error_skipn in Hd.
    exists (index + d). eexists. split; [exact H|].
    split; [exact Hd|]. split; [simpl; lia|]. left. split; [lia|].
    intros j Hj. specialize (Hbefore (j - index) ltac:(lia)).
    rewrite nth_error_skipn in Hbefore.
    now replace (index + (j - index)) with j in Hbefore by lia.
  - assert (Hafter : forall j, index <= j -> nth_error x j <> Some target).
    { intros j Hj Hnth. apply first_index_None in Ed. apply Ed.
      apply nth_error_In with (n := j - index). rewrite nth_error_skipn.
      now replace (index + (j - index)) with j by lia. }
    destruct (first_index target (firstn (index + 1) x)) as [q|] eqn:Eq.
    + left. apply first_index_Some in Eq. destruct Eq as [Hq Hbefore].
      rewrite nth_error_firstn in Hq.
      destruct (Nat.ltb_spec q (index + 1)) as [Hlt|]; [|discriminate].
      assert (Hq' : q < index).
      { destruct (Nat.eq_dec q index) as [->|]; [|lia].
        exfalso. now apply (Hafter index (le_n _)). }
      exists q. eexists. split; [exact H|].
      split; [exact Hq|]. split; [reflexivity|]. right.
      split; [exact Hq'|]. split; [exact Hafter|].
      intros j Hj. specialize (Hbefore j Hj).
      rewrite nth_error_firstn in Hbefore.
      destruct (Nat.ltb_spec j (index + 1)); [assumption | lia].
    + right. split; [|exact H].
      intros Hin. apply In_nth_error in Hin. destruct Hin as [j Hj].
      destruct (Nat.lt_ge_cases j index) as [Hlt|Hge].
      * apply first_index_None in Eq. apply Eq.
        apply nth_error_In with (n := j). rewrite nth_error_firstn.
        destruct (Nat.ltb_spec j (index + 1)); [assumption | lia].
      * now apply (Hafter j Hge).
Qed.
